(** * go-media: media flags, the manager's decode loop and bulk close

    A shallow embedding of [media.go] (the [MediaFlag] bitfield and its
    stringification) and of [pkg/media/manager.go] (the manager's open-handle
    registry, [Close], [Map] and [Decode]), with the properties the
    specification states about them. The stream map and the audio conversion,
    whose sources are not part of the development, are modelled from the
    specification and marked as such. *)

From Stdlib Require Import NArith List Lia Bool Ascii.
From stdpp Require Import gmap strings list fin_maps sorting.

Local Open Scope N_scope.

(** ** Outcomes of Go calls

    A Go call either returns a value or panics; a loop modelled with fuel
    may also run out of it, which is kept apart from both. *)

Inductive outcome (A : Type) : Type :=
| Returns (a : A)
| Panics (msg : string)
| OutOfFuel.

Arguments Returns {A} a.
Arguments Panics {A} msg.
Arguments OutOfFuel {A}.

(** [str[n:]] on a Go string: the suffix from byte [n], a run-time panic
    when [n] exceeds the length. *)
Fixpoint slice_from (n : nat) (str : string) : outcome string :=
  match n, str with
  | O, _ => Returns str
  | S n', String.String _ rest => slice_from n' rest
  | S _, String.EmptyString => Panics "slice bounds out of range"
  end.

(** ** media.go: MediaFlag *)

(** [type MediaFlag uint]: an unsigned machine word, 64 bits wide. *)
Definition MediaFlag : Type := N.

Definition uint_size : N := 64.

Definition uint_wrap (n : N) : N := n mod 2 ^ uint_size.

(** [x << s] on a [uint]: the bits shifted out at the top are lost. *)
Definition uint_shl (x s : N) : N := uint_wrap (N.shiftl x s).

(** The constant block: [1 << iota] for fifteen consecutive values of iota. *)
Definition MEDIA_FLAG_ALBUM : MediaFlag := uint_shl 1 0.
Definition MEDIA_FLAG_ALBUM_TRACK : MediaFlag := uint_shl 1 1.
Definition MEDIA_FLAG_ALBUM_COMPILATION : MediaFlag := uint_shl 1 2.
Definition MEDIA_FLAG_TVSHOW : MediaFlag := uint_shl 1 3.
Definition MEDIA_FLAG_TVSHOW_EPISODE : MediaFlag := uint_shl 1 4.
Definition MEDIA_FLAG_FILE : MediaFlag := uint_shl 1 5.
Definition MEDIA_FLAG_VIDEO : MediaFlag := uint_shl 1 6.
Definition MEDIA_FLAG_AUDIO : MediaFlag := uint_shl 1 7.
Definition MEDIA_FLAG_SUBTITLE : MediaFlag := uint_shl 1 8.
Definition MEDIA_FLAG_DATA : MediaFlag := uint_shl 1 9.
Definition MEDIA_FLAG_ATTACHMENT : MediaFlag := uint_shl 1 10.
Definition MEDIA_FLAG_ARTWORK : MediaFlag := uint_shl 1 11.
Definition MEDIA_FLAG_CAPTIONS : MediaFlag := uint_shl 1 12.
Definition MEDIA_FLAG_ENCODER : MediaFlag := uint_shl 1 13.
Definition MEDIA_FLAG_DECODER : MediaFlag := uint_shl 1 14.
Definition MEDIA_FLAG_NONE : MediaFlag := 0.
Definition MEDIA_FLAG_MAX : MediaFlag := MEDIA_FLAG_DECODER.

(** The named enumeration, in declaration order. *)
Definition named_flags : list MediaFlag :=
  [ MEDIA_FLAG_ALBUM; MEDIA_FLAG_ALBUM_TRACK; MEDIA_FLAG_ALBUM_COMPILATION;
    MEDIA_FLAG_TVSHOW; MEDIA_FLAG_TVSHOW_EPISODE; MEDIA_FLAG_FILE;
    MEDIA_FLAG_VIDEO; MEDIA_FLAG_AUDIO; MEDIA_FLAG_SUBTITLE; MEDIA_FLAG_DATA;
    MEDIA_FLAG_ATTACHMENT; MEDIA_FLAG_ARTWORK; MEDIA_FLAG_CAPTIONS;
    MEDIA_FLAG_ENCODER; MEDIA_FLAG_DECODER ].

Definition invalid_flag_marker : string := "[?? Invalid MediaFlag]".

Module MediaFlag.

(** [func (f MediaFlag) Is(v MediaFlag) bool] *)
Definition Is (f v : MediaFlag) : bool := N.land f v =? v.

(** [func (f MediaFlag) FlagString() string]: the switch, case by case. *)
Definition FlagString (f : MediaFlag) : string :=
  if f =? MEDIA_FLAG_NONE then "MEDIA_FLAG_NONE"
  else if f =? MEDIA_FLAG_ALBUM then "MEDIA_FLAG_ALBUM"
  else if f =? MEDIA_FLAG_ALBUM_TRACK then "MEDIA_FLAG_ALBUM_TRACK"
  else if f =? MEDIA_FLAG_ALBUM_COMPILATION then "MEDIA_FLAG_ALBUM_COMPILATION"
  else if f =? MEDIA_FLAG_TVSHOW then "MEDIA_FLAG_TVSHOW"
  else if f =? MEDIA_FLAG_TVSHOW_EPISODE then "MEDIA_FLAG_TVSHOW_EPISODE"
  else if f =? MEDIA_FLAG_FILE then "MEDIA_FLAG_FILE"
  else if f =? MEDIA_FLAG_VIDEO then "MEDIA_FLAG_VIDEO"
  else if f =? MEDIA_FLAG_AUDIO then "MEDIA_FLAG_AUDIO"
  else if f =? MEDIA_FLAG_SUBTITLE then "MEDIA_FLAG_SUBTITLE"
  else if f =? MEDIA_FLAG_DATA then "MEDIA_FLAG_DATA"
  else if f =? MEDIA_FLAG_ATTACHMENT then "MEDIA_FLAG_ATTACHMENT"
  else if f =? MEDIA_FLAG_ARTWORK then "MEDIA_FLAG_ARTWORK"
  else if f =? MEDIA_FLAG_CAPTIONS then "MEDIA_FLAG_CAPTIONS"
  else if f =? MEDIA_FLAG_ENCODER then "MEDIA_FLAG_ENCODER"
  else if f =? MEDIA_FLAG_DECODER then "MEDIA_FLAG_DECODER"
  else invalid_flag_marker.

(** The body of the [for] loop of [String]: one test of [f&v == v]. *)
Definition String_step (f : MediaFlag) (str : string) (v : MediaFlag) : string :=
  if Is f v then (str +:+ "|" +:+ FlagString v)%string else str.

(** [for v := MediaFlag(1); v <= MEDIA_FLAG_MAX; v <<= 1 { ... }] *)
Fixpoint String_loop (fuel : nat) (f v : MediaFlag) (str : string)
  : option string :=
  if v <=? MEDIA_FLAG_MAX then
    match fuel with
    | O => None
    | S fuel' => String_loop fuel' f (uint_shl v 1) (String_step f str v)
    end
  else Some str.

(** [func (f MediaFlag) String() string] *)
Definition String (f : MediaFlag) : outcome string :=
  if f =? MEDIA_FLAG_NONE then Returns (FlagString f)
  else
    match String_loop (N.to_nat uint_size) f 1 "" with
    | None => OutOfFuel
    | Some str => slice_from 1 str
    end.

End MediaFlag.

(** The bitwise OR of a collection of flags. *)
Definition flag_or (S : list MediaFlag) : MediaFlag :=
  fold_right N.lor MEDIA_FLAG_NONE S.

(** What the specification says [String] renders for a non-empty set of
    named bits: the names of the set bits, in enumeration order, joined by
    the delimiter. *)
Definition set_names (f : MediaFlag) : list string :=
  map MediaFlag.FlagString (List.filter (MediaFlag.Is f) named_flags).

Definition render_names (f : MediaFlag) : string :=
  String.concat "|" (set_names f).

(** A value has an unrecognized bit when something is left above the mask of
    the named flags. *)
Definition named_mask : MediaFlag := flag_or named_flags.

Definition has_unrecognized_bits (f : MediaFlag) : bool :=
  negb (N.land f named_mask =? f).

(** The flag of bit [k]. *)
Definition pow2_flag (k : nat) : MediaFlag := 2 ^ N.of_nat k.

(** ** Go errors and github.com/hashicorp/go-multierror *)

(** Plain (non-aggregate) error values: the sentinels the code compares
    against or returns, and opaque failures of the codec library. *)
Inductive err : Type :=
| io_EOF
| context_Canceled
| context_DeadlineExceeded
| ErrBadParameter (what : string)
| ErrExternal (msg : string).

(** A non-nil [error] interface value: a plain error or a
    [*multierror.Error] with its [Errors] slice. *)
Inductive goerr : Type :=
| Plain (e : err)
| Aggregate (es : list err).

(** The [error] interface; [None] is [nil]. *)
Definition error : Type := option goerr.

Definition is_io_EOF (e : err) : bool :=
  match e with io_EOF => true | _ => false end.

Module multierror.

(** The members an error contributes when appended: a
    [*multierror.Error] is flattened, [nil] contributes nothing. *)
Definition flatten (e : error) : list err :=
  match e with
  | None => []
  | Some (Plain x) => [x]
  | Some (Aggregate es) => es
  end.

(** [multierror.Append(result, e)]: always a non-nil [*Error]. *)
Definition Append (result e : error) : error :=
  Some (Aggregate (flatten result ++ flatten e)).

End multierror.

(** [if err != nil { result = multierror.Append(result, err) }] *)
Definition record_error (result e : error) : error :=
  match e with
  | Some _ => multierror.Append result e
  | None => result
  end.

(** What a caller finds when inspecting an error value: nothing in nil, a
    plain error itself, and in an aggregate each of its members. *)
Definition inspect (e : error) : list err :=
  match e with
  | None => []
  | Some (Plain x) => [x]
  | Some (Aggregate es) => es
  end.

Definition is_nil (e : error) : bool :=
  match e with None => true | Some _ => false end.

(** The aggregate of the failures among the results of a sequence of
    calls, as the specification describes it: nil when every call returned
    nil, and otherwise one aggregate in which the errors of the failed
    calls stand side by side, in the order of the calls. *)
Definition aggregate_of (results : list error) : error :=
  if forallb is_nil results then None
  else Some (Aggregate (concat (map inspect results))).

(** ** Streams, packets and containers *)

Record Stream : Type := {
  Index : nat;
  Flags : MediaFlag
}.

Record packet : Type := {
  pkt_stream : nat;   (* index of the stream the packet belongs to *)
  pkt_pos : N         (* byte position in the media *)
}.

(** What the demuxer delivers to successive [av_read_frame] calls: the
    packets in file order, then the error that ends the reading ([io.EOF]
    at the end of the stream). *)
Record container : Type := {
  packets : list packet;
  read_end : err
}.

(** The [*input] media: its stream list and the container behind it. *)
Record input : Type := {
  in_streams : list Stream;
  in_container : container
}.

(** A [Media] interface value as [Decode] and [NewMap] see it: the nil
    interface, an [*input] (possibly a nil pointer), or any other
    implementation. *)
Inductive Media : Type :=
| nil_Media
| input_ptr (i : option input)
| other_Media.

(** The reusable packet buffer of a map; it holds the last packet read. *)
Record packet_buf : Type := { held : option packet }.

Record decodemap : Type := {
  dm_input : Media;
  dm_streams : list Stream;
  dm_packet : option packet_buf   (* [None]: a nil [*packet] *)
}.

(** A [Map] interface value: a [*decodemap] or another implementation, of
    which only [Input()] is observed. *)
Inductive Map : Type :=
| decodemap_ptr (dm : decodemap)
| other_Map (input : Media).

Definition Map_Input (m : Map) : Media :=
  match m with
  | decodemap_ptr dm => dm_input dm
  | other_Map i => i
  end.

(** [context.Context], observed once per loop iteration: the context is
    done from iteration [done_from] on (never, when [None]), and [Err()]
    then reports [reason]. *)
Record Context : Type := {
  done_from : option nat;
  reason : err
}.

Definition ctx_Err (ctx : Context) (t : nat) : error :=
  match done_from ctx with
  | Some k => if (k <=? t)%nat then Some (Plain (reason ctx)) else None
  | None => None
  end.

(** ** pkg/media: the stream map (source not available) *)

(** The categories a map selects among, in the order the specification
    lists them. *)
Definition stream_categories : list MediaFlag :=
  [ MEDIA_FLAG_VIDEO; MEDIA_FLAG_AUDIO; MEDIA_FLAG_SUBTITLE; MEDIA_FLAG_DATA;
    MEDIA_FLAG_ATTACHMENT ].

Definition category_wanted (flags c : MediaFlag) : bool :=
  (flags =? MEDIA_FLAG_NONE) || MediaFlag.Is flags c.

(** Modelled from the spec: the kind of a stream, whose value type is
    missing. A stream is of one kind (video, audio, subtitle, data or
    attachment): the first category its flags carry, and of no kind when
    they carry none. *)
Definition kind_of (s : Stream) : option MediaFlag :=
  List.find (MediaFlag.Is (Flags s)) stream_categories.


(** Modelled from the spec: the stream selection of [NewMap], whose source
    is missing. One walk over the streams in order; a stream is selected
    when its kind is wanted by the selector and no earlier stream of that
    kind was selected, and that kind is then taken. *)
Fixpoint select_streams (flags : MediaFlag) (seen : gset N)
    (streams : list Stream) : list Stream :=
  match streams with
  | [] => []
  | s :: rest =>
      match kind_of s with
      | Some k =>
          if category_wanted flags k && negb (bool_decide (k ∈ seen))
          then s :: select_streams flags ({[ k ]} ∪ seen) rest
          else select_streams flags seen rest
      | None => select_streams flags seen rest
      end
  end.

(** Modelled from the spec: [NewMap], whose source is missing. An error is
    raised only for an invalid media handle; zero matches are no error. *)
Definition NewMap (media : Media) (flags : MediaFlag) : decodemap + goerr :=
  match media with
  | input_ptr (Some i) =>
      inl {| dm_input := media;
             dm_streams := select_streams flags ∅ (in_streams i);
             dm_packet := Some {| held := None |} |}
  | _ => inr (Plain (ErrBadParameter "media"))
  end.

(** Whether the map selects the stream a packet belongs to. *)
Definition selected (dm : decodemap) (p : packet) : bool :=
  existsb (fun s => (Index s =? pkt_stream p)%nat) (dm_streams dm).


(** ** pkg/media/manager.go: the manager *)

(** [map[Media]bool]: the open media, keyed by the identity of the handle
    (the address the interface value points to). *)
Record manager : Type := {
  media : gmap positive bool
}.

(** [func New() *manager] *)
Definition New : manager := {| media := ∅ |}.

(** The closure [OpenFile] and [CreateFile] hand to the media they open:
    [delete(m.media, media); return nil]. *)
Definition release (h : positive) (m : manager) : manager * error :=
  ({| media := delete h (media m) |}, None).

(** [OpenFile]; [opened] is what [NewInputFile] returned. *)
Definition OpenFile (m : manager) (opened : positive + goerr)
  : manager * (positive + goerr) :=
  match opened with
  | inr e => (m, inr e)
  | inl h => ({| media := <[h := true]> (media m) |}, inl h)
  end.

(** [CreateFile]; [created] is what [NewOutputFile] returned. *)
Definition CreateFile (m : manager) (created : positive + goerr)
  : manager * (positive + goerr) :=
  match created with
  | inr e => (m, inr e)
  | inl h => ({| media := <[h := true]> (media m) |}, inl h)
  end.

(** The order in which [for media := range m.media] visits the keys is not
    specified: any enumeration of the keys, each once, is a possible one. *)
Definition range_keys (m : manager) (keys : list positive) : Prop :=
  keys ≡ₚ (map_to_list (media m)).*1.

Section ManagerClose.

(** [Close()] of a tracked media; it runs against the manager, which its
    release callback may update. *)
Variable Media_Close : positive -> manager -> manager * error.

(** The second loop of [Close], over the collected keys; the log keeps
    every call of [media.Close()] with what it returned. *)
Fixpoint Close_loop (keys : list positive) (m : manager) (result : error)
  : manager * error * list (positive * error) :=
  match keys with
  | [] => (m, result, [])
  | h :: rest =>
      let '(m1, e) := Media_Close h m in
      let '(m2, r, log) := Close_loop rest m1 (record_error result e) in
      (m2, r, (h, e) :: log)
  end.

(** [func (m *manager) Close() error], for the key order [keys]. *)
Definition Close (keys : list positive) (m : manager)
  : manager * error * list (positive * error) :=
  Close_loop keys m None.

End ManagerClose.

(** What a [Decode] call does that can be observed from outside. *)
Inductive event : Type :=
| EvRead (r : packet + err)          (* one [av_read_frame] and its result *)
| EvHandler (p : packet) (r : error) (* one call of the [DecodeFn] *)
| EvRelease                          (* [packet.Release()] *)
| EvClose (r : error).               (* [decodemap.Close()] *)

(** How the [for] loop of [Decode] is left: by [return] from inside it, or
    by [break FOR_LOOP] with the errors recorded so far. *)
Inductive loop_exit : Type :=
| ExitReturn (e : error)
| ExitBreak (result : error).

Section ManagerDecode.

(** The state a handler closes over. *)
Context {St : Type}.

(** The caller's [DecodeFn], with its state passed explicitly. *)
Variable fn : St -> packet -> St * error.

(** [Close()] on the [decodemap] pointer; what it returns. *)
Variable decodemap_Close : decodemap -> error.

(** Modelled from the spec: the [Decode] method of [decodemap], whose source is
    missing. A packet of a selected stream goes to the handler, whose
    result is returned; any other packet is skipped silently. *)
Definition decodemap_Decode (dm : decodemap) (h : St) (p : packet)
    : St * error * list event :=
  if selected dm p then
    let '(h1, r) := fn h p in (h1, r, [EvHandler p r])
  else (h, None, []).

(** The [FOR_LOOP] of [Decode]: [reads] are the packets the container
    still holds, [fin] the error that follows them, [t] the number of
    iterations done. *)
Fixpoint Decode_loop (ctx : Context) (dm : decodemap) (reads : list packet)
    (fin : err) (t : nat) (result : error) (h : St)
  : loop_exit * list event * St :=
  match ctx_Err ctx t with
  | Some e => (ExitReturn (Some e), [], h)
  | None =>
      match reads with
      | [] =>
          let result1 :=
            if is_io_EOF fin then result
            else multierror.Append result (Some (Plain fin)) in
          (ExitBreak result1, [EvRead (inr fin)], h)
      | p :: rest =>
          let '(h1, r, evs) := decodemap_Decode dm h p in
          match r with
          | Some _ =>
              (ExitBreak (multierror.Append result r), EvRead (inl p) :: evs, h1)
          | None =>
              let '(ex, tr, h2) := Decode_loop ctx dm rest fin (S t) result h1 in
              (ex, EvRead (inl p) :: evs ++ EvRelease :: tr, h2)
          end
      end
  end.

(** [func (manager *manager) Decode(ctx, media_map, fn) error] *)
Definition Decode (ctx : Context) (media_map : Map) (h : St)
  : outcome error * list event * St :=
  match Map_Input media_map with
  | input_ptr (Some i) =>
      match media_map with
      | decodemap_ptr dm =>
          match dm_packet dm with
          | None => (Returns (Some (Plain (ErrBadParameter "packet"))), [], h)
          | Some _ =>
              let c := in_container i in
              match Decode_loop ctx dm (packets c) (read_end c) 0 None h with
              | (ExitReturn e, tr, h1) => (Returns e, tr, h1)
              | (ExitBreak result, tr, h1) =>
                  let e := decodemap_Close dm in
                  (Returns (record_error result e), tr ++ [EvClose e], h1)
              end
          end
      | other_Map _ =>
          (Panics "interface conversion: Map is not *decodemap", [], h)
      end
  | _ => (Returns (Some (Plain (ErrBadParameter "input"))), [], h)
  end.

End ManagerDecode.

(** [func (m *manager) Map(media, flags) (Map, error)] *)
Definition manager_Map (m : manager) (h : Media) (flags : MediaFlag)
  : decodemap + goerr :=
  NewMap h flags.

(** Counting in a trace. *)
Definition is_handler (e : event) : bool :=
  match e with EvHandler _ _ => true | _ => false end.

Definition is_read (e : event) : bool :=
  match e with EvRead _ => true | _ => false end.

Definition is_close (e : event) : bool :=
  match e with EvClose _ => true | _ => false end.

Definition count_events (f : event -> bool) (tr : list event) : nat :=
  length (List.filter f tr).

(** The maps that pass the parameter checks of [Decode] and enter its loop:
    a [decodemap] over a non-nil [input] with a packet buffer. *)
Definition session_of (media_map : Map) : option (decodemap * input) :=
  match media_map with
  | decodemap_ptr dm =>
      match dm_input dm, dm_packet dm with
      | input_ptr (Some i), Some _ => Some (dm, i)
      | _, _ => None
      end
  | other_Map _ => None
  end.

(** ** Sessions as the specification describes them *)

(** What the loop does with a packet whose dispatch returns nil: the read,
    the handler call when the stream of the packet is selected, the
    release. *)
Definition quiet_step (dm : decodemap) (p : packet) : list event :=
  EvRead (inl p)
  :: (if selected dm p then [EvHandler p None] else []) ++ [EvRelease].

(** The trace of a run of packets on which the handler never fails. *)
Definition quiet_trace (dm : decodemap) (pre : list packet) : list event :=
  concat (map (quiet_step dm) pre).

Section Handling.

Context {St : Type}.
Variable fn : St -> packet -> St * error.

(** The state of the handler after it was given the packets of [pre]
    that belong to selected streams and returned nil on each; [None] when
    one of its calls fails. *)
Fixpoint handle_all (dm : decodemap) (pre : list packet) (h : St) : option St :=
  match pre with
  | [] => Some h
  | p :: rest =>
      if selected dm p then
        let '(h1, r) := fn h p in
        match r with
        | Some _ => None
        | None => handle_all dm rest h1
        end
      else handle_all dm rest h
  end.

End Handling.

(** The [Close()] calls made on the media of [calls], one after the other
    from registry [m], with what each returned, leaving registry [m']. *)
Inductive close_chain (Media_Close : positive -> manager -> manager * error)
  : manager -> list (positive * error) -> manager -> Prop :=
| chain_done (m : manager) : close_chain Media_Close m [] m
| chain_call (m : manager) (h : positive) (m1 : manager) (e : error)
    (calls : list (positive * error)) (m' : manager) :
    Media_Close h m = (m1, e) ->
    close_chain Media_Close m1 calls m' ->
    close_chain Media_Close m ((h, e) :: calls) m'.

(** ** pkg/audio: sample-format conversion (source not available) *)

Record AudioFormat : Type := {
  Rate : N;
  Format : N;   (* a [SampleFormat] *)
  Layout : N    (* a [ChannelLayout] *)
}.

Definition SAMPLE_FORMAT_U8 : N := 1.
Definition SAMPLE_FORMAT_DBL : N := 5.
Definition CHANNEL_LAYOUT_MONO : N := 1.

Record AudioFrame : Type := {
  frame_format : AudioFormat;
  frame_samples : N
}.

Section AudioConvert.

Context {St : Type}.

(** The caller's callback, with its state passed explicitly. *)
Variable fn : St -> AudioFrame -> St * error.

(** Modelled from the spec: the delivery loop of [Convert], whose source
    is missing. The callback is called once per output buffer, in order; a
    non-nil result ends the delivery and is the result of [Convert]. *)
Fixpoint Convert_deliver (outs : list AudioFrame) (h : St)
  : error * list (AudioFrame * error) * St :=
  match outs with
  | [] => (None, [], h)
  | out :: rest =>
      let '(h1, r) := fn h out in
      match r with
      | Some _ => (r, [(out, r)], h1)
      | None =>
          let '(res, log, h2) := Convert_deliver rest h1 in
          (res, (out, r) :: log, h2)
      end
  end.


(** The buffers the resampler produces for an input frame and a target
    format. *)
Variable resample : AudioFrame -> AudioFormat -> list AudioFrame.

(** Modelled from the spec: [Convert], whose source is missing. *)
Definition Convert (inp : AudioFrame) (out : AudioFormat) (h : St)
  : error * list (AudioFrame * error) * St :=
  Convert_deliver (resample inp out) h.

End AudioConvert.

(** ** Sample formats and channel layouts: their names

    The two [iota] blocks and the [String] switches of the audio
    declarations. *)

Definition SampleFormat : Type := N.
Definition ChannelLayout : Type := N.

Definition SAMPLE_FORMAT_NONE : SampleFormat := 0.
Definition SAMPLE_FORMAT_S16 : SampleFormat := 2.
Definition SAMPLE_FORMAT_S32 : SampleFormat := 3.
Definition SAMPLE_FORMAT_FLT : SampleFormat := 4.
Definition SAMPLE_FORMAT_U8P : SampleFormat := 6.
Definition SAMPLE_FORMAT_S16P : SampleFormat := 7.
Definition SAMPLE_FORMAT_S32P : SampleFormat := 8.
Definition SAMPLE_FORMAT_FLTP : SampleFormat := 9.
Definition SAMPLE_FORMAT_DBLP : SampleFormat := 10.
Definition SAMPLE_FORMAT_S64 : SampleFormat := 11.
Definition SAMPLE_FORMAT_S64P : SampleFormat := 12.

Definition CHANNEL_LAYOUT_NONE : ChannelLayout := 0.
Definition CHANNEL_LAYOUT_STEREO : ChannelLayout := 2.
Definition CHANNEL_LAYOUT_2POINT1 : ChannelLayout := 3.
Definition CHANNEL_LAYOUT_2_1 : ChannelLayout := 4.
Definition CHANNEL_LAYOUT_SURROUND : ChannelLayout := 5.
Definition CHANNEL_LAYOUT_3POINT1 : ChannelLayout := 6.
Definition CHANNEL_LAYOUT_4POINT0 : ChannelLayout := 7.
Definition CHANNEL_LAYOUT_4POINT1 : ChannelLayout := 8.
Definition CHANNEL_LAYOUT_2_2 : ChannelLayout := 9.
Definition CHANNEL_LAYOUT_QUAD : ChannelLayout := 10.
Definition CHANNEL_LAYOUT_5POINT0 : ChannelLayout := 11.
Definition CHANNEL_LAYOUT_5POINT1 : ChannelLayout := 12.
Definition CHANNEL_LAYOUT_5POINT0_BACK : ChannelLayout := 13.
Definition CHANNEL_LAYOUT_5POINT1_BACK : ChannelLayout := 14.
Definition CHANNEL_LAYOUT_6POINT0 : ChannelLayout := 15.
Definition CHANNEL_LAYOUT_6POINT0_FRONT : ChannelLayout := 16.
Definition CHANNEL_LAYOUT_HEXAGONAL : ChannelLayout := 17.
Definition CHANNEL_LAYOUT_6POINT1 : ChannelLayout := 18.
Definition CHANNEL_LAYOUT_6POINT1_BACK : ChannelLayout := 19.
Definition CHANNEL_LAYOUT_6POINT1_FRONT : ChannelLayout := 20.
Definition CHANNEL_LAYOUT_7POINT0 : ChannelLayout := 21.
Definition CHANNEL_LAYOUT_7POINT0_FRONT : ChannelLayout := 22.
Definition CHANNEL_LAYOUT_7POINT1 : ChannelLayout := 23.
Definition CHANNEL_LAYOUT_7POINT1_WIDE : ChannelLayout := 24.
Definition CHANNEL_LAYOUT_7POINT1_WIDE_BACK : ChannelLayout := 25.
Definition CHANNEL_LAYOUT_OCTAGONAL : ChannelLayout := 26.
Definition CHANNEL_LAYOUT_HEXADECAGONAL : ChannelLayout := 27.
Definition CHANNEL_LAYOUT_STEREO_DOWNMIX : ChannelLayout := 28.
Definition CHANNEL_LAYOUT_22POINT2 : ChannelLayout := 29.
Definition CHANNEL_LAYOUT_AMBISONIC_FIRST_ORDER : ChannelLayout := 30.

Definition invalid_sample_format : string := "[?? Invalid SampleFormat value]".
Definition invalid_channel_layout : string := "[?? Invalid ChannelLayout value]".

(** [func (v SampleFormat) String() string] *)
Definition SampleFormat_String (v : SampleFormat) : string :=
  if v =? SAMPLE_FORMAT_NONE then "SAMPLE_FORMAT_NONE"
  else if v =? SAMPLE_FORMAT_U8 then "SAMPLE_FORMAT_U8"
  else if v =? SAMPLE_FORMAT_S16 then "SAMPLE_FORMAT_S16"
  else if v =? SAMPLE_FORMAT_S32 then "SAMPLE_FORMAT_S32"
  else if v =? SAMPLE_FORMAT_FLT then "SAMPLE_FORMAT_FLT"
  else if v =? SAMPLE_FORMAT_DBL then "SAMPLE_FORMAT_DBL"
  else if v =? SAMPLE_FORMAT_U8P then "SAMPLE_FORMAT_U8P"
  else if v =? SAMPLE_FORMAT_S16P then "SAMPLE_FORMAT_S16P"
  else if v =? SAMPLE_FORMAT_S32P then "SAMPLE_FORMAT_S32P"
  else if v =? SAMPLE_FORMAT_FLTP then "SAMPLE_FORMAT_FLTP"
  else if v =? SAMPLE_FORMAT_DBLP then "SAMPLE_FORMAT_DBLP"
  else if v =? SAMPLE_FORMAT_S64 then "SAMPLE_FORMAT_S64"
  else if v =? SAMPLE_FORMAT_S64P then "SAMPLE_FORMAT_S64P"
  else invalid_sample_format.

(** [func (v ChannelLayout) String() string] *)
Definition ChannelLayout_String (v : ChannelLayout) : string :=
  if v =? CHANNEL_LAYOUT_NONE then "CHANNEL_LAYOUT_NONE"
  else if v =? CHANNEL_LAYOUT_MONO then "CHANNEL_LAYOUT_MONO"
  else if v =? CHANNEL_LAYOUT_STEREO then "CHANNEL_LAYOUT_STEREO"
  else if v =? CHANNEL_LAYOUT_2POINT1 then "CHANNEL_LAYOUT_2POINT1"
  else if v =? CHANNEL_LAYOUT_2_1 then "CHANNEL_LAYOUT_2_1"
  else if v =? CHANNEL_LAYOUT_SURROUND then "CHANNEL_LAYOUT_SURROUND"
  else if v =? CHANNEL_LAYOUT_3POINT1 then "CHANNEL_LAYOUT_3POINT1"
  else if v =? CHANNEL_LAYOUT_4POINT0 then "CHANNEL_LAYOUT_4POINT0"
  else if v =? CHANNEL_LAYOUT_4POINT1 then "CHANNEL_LAYOUT_4POINT1"
  else if v =? CHANNEL_LAYOUT_2_2 then "CHANNEL_LAYOUT_2_2"
  else if v =? CHANNEL_LAYOUT_QUAD then "CHANNEL_LAYOUT_QUAD"
  else if v =? CHANNEL_LAYOUT_5POINT0 then "CHANNEL_LAYOUT_5POINT0"
  else if v =? CHANNEL_LAYOUT_5POINT1 then "CHANNEL_LAYOUT_5POINT1"
  else if v =? CHANNEL_LAYOUT_5POINT0_BACK then "CHANNEL_LAYOUT_5POINT0_BACK"
  else if v =? CHANNEL_LAYOUT_5POINT1_BACK then "CHANNEL_LAYOUT_5POINT1_BACK"
  else if v =? CHANNEL_LAYOUT_6POINT0 then "CHANNEL_LAYOUT_6POINT0"
  else if v =? CHANNEL_LAYOUT_6POINT0_FRONT then "CHANNEL_LAYOUT_6POINT0_FRONT"
  else if v =? CHANNEL_LAYOUT_HEXAGONAL then "CHANNEL_LAYOUT_HEXAGONAL"
  else if v =? CHANNEL_LAYOUT_6POINT1 then "CHANNEL_LAYOUT_6POINT1"
  else if v =? CHANNEL_LAYOUT_6POINT1_BACK then "CHANNEL_LAYOUT_6POINT1_BACK"
  else if v =? CHANNEL_LAYOUT_6POINT1_FRONT then "CHANNEL_LAYOUT_6POINT1_FRONT"
  else if v =? CHANNEL_LAYOUT_7POINT0 then "CHANNEL_LAYOUT_7POINT0"
  else if v =? CHANNEL_LAYOUT_7POINT0_FRONT then "CHANNEL_LAYOUT_7POINT0_FRONT"
  else if v =? CHANNEL_LAYOUT_7POINT1 then "CHANNEL_LAYOUT_7POINT1"
  else if v =? CHANNEL_LAYOUT_7POINT1_WIDE then "CHANNEL_LAYOUT_7POINT1_WIDE"
  else if v =? CHANNEL_LAYOUT_7POINT1_WIDE_BACK then "CHANNEL_LAYOUT_7POINT1_WIDE_BACK"
  else if v =? CHANNEL_LAYOUT_OCTAGONAL then "CHANNEL_LAYOUT_OCTAGONAL"
  else if v =? CHANNEL_LAYOUT_HEXADECAGONAL then "CHANNEL_LAYOUT_HEXADECAGONAL"
  else if v =? CHANNEL_LAYOUT_STEREO_DOWNMIX then "CHANNEL_LAYOUT_STEREO_DOWNMIX"
  else if v =? CHANNEL_LAYOUT_22POINT2 then "CHANNEL_LAYOUT_22POINT2"
  else if v =? CHANNEL_LAYOUT_AMBISONIC_FIRST_ORDER then "CHANNEL_LAYOUT_AMBISONIC_FIRST_ORDER"
  else invalid_channel_layout.

(** A [switch] over constants with a [default], read as a table: the first
    case equal to the value gives the result. *)
Fixpoint switch_table (table : list (N * string)) (default : string) (v : N)
  : string :=
  match table with
  | [] => default
  | (c, s) :: rest => if v =? c then s else switch_table rest default v
  end.

(** The cases of the three [String] switches, in source order. *)
Definition flag_cases : list (N * string) :=
  (MEDIA_FLAG_NONE, "MEDIA_FLAG_NONE") ::
  [ (MEDIA_FLAG_ALBUM, "MEDIA_FLAG_ALBUM");
    (MEDIA_FLAG_ALBUM_TRACK, "MEDIA_FLAG_ALBUM_TRACK");
    (MEDIA_FLAG_ALBUM_COMPILATION, "MEDIA_FLAG_ALBUM_COMPILATION");
    (MEDIA_FLAG_TVSHOW, "MEDIA_FLAG_TVSHOW");
    (MEDIA_FLAG_TVSHOW_EPISODE, "MEDIA_FLAG_TVSHOW_EPISODE");
    (MEDIA_FLAG_FILE, "MEDIA_FLAG_FILE");
    (MEDIA_FLAG_VIDEO, "MEDIA_FLAG_VIDEO");
    (MEDIA_FLAG_AUDIO, "MEDIA_FLAG_AUDIO");
    (MEDIA_FLAG_SUBTITLE, "MEDIA_FLAG_SUBTITLE");
    (MEDIA_FLAG_DATA, "MEDIA_FLAG_DATA");
    (MEDIA_FLAG_ATTACHMENT, "MEDIA_FLAG_ATTACHMENT");
    (MEDIA_FLAG_ARTWORK, "MEDIA_FLAG_ARTWORK");
    (MEDIA_FLAG_CAPTIONS, "MEDIA_FLAG_CAPTIONS");
    (MEDIA_FLAG_ENCODER, "MEDIA_FLAG_ENCODER");
    (MEDIA_FLAG_DECODER, "MEDIA_FLAG_DECODER") ].

Definition sample_format_cases : list (N * string) :=
  [ (SAMPLE_FORMAT_NONE, "SAMPLE_FORMAT_NONE");
    (SAMPLE_FORMAT_U8, "SAMPLE_FORMAT_U8");
    (SAMPLE_FORMAT_S16, "SAMPLE_FORMAT_S16");
    (SAMPLE_FORMAT_S32, "SAMPLE_FORMAT_S32");
    (SAMPLE_FORMAT_FLT, "SAMPLE_FORMAT_FLT");
    (SAMPLE_FORMAT_DBL, "SAMPLE_FORMAT_DBL");
    (SAMPLE_FORMAT_U8P, "SAMPLE_FORMAT_U8P");
    (SAMPLE_FORMAT_S16P, "SAMPLE_FORMAT_S16P");
    (SAMPLE_FORMAT_S32P, "SAMPLE_FORMAT_S32P");
    (SAMPLE_FORMAT_FLTP, "SAMPLE_FORMAT_FLTP");
    (SAMPLE_FORMAT_DBLP, "SAMPLE_FORMAT_DBLP");
    (SAMPLE_FORMAT_S64, "SAMPLE_FORMAT_S64");
    (SAMPLE_FORMAT_S64P, "SAMPLE_FORMAT_S64P") ].

Definition channel_layout_cases : list (N * string) :=
  [ (CHANNEL_LAYOUT_NONE, "CHANNEL_LAYOUT_NONE");
    (CHANNEL_LAYOUT_MONO, "CHANNEL_LAYOUT_MONO");
    (CHANNEL_LAYOUT_STEREO, "CHANNEL_LAYOUT_STEREO");
    (CHANNEL_LAYOUT_2POINT1, "CHANNEL_LAYOUT_2POINT1");
    (CHANNEL_LAYOUT_2_1, "CHANNEL_LAYOUT_2_1");
    (CHANNEL_LAYOUT_SURROUND, "CHANNEL_LAYOUT_SURROUND");
    (CHANNEL_LAYOUT_3POINT1, "CHANNEL_LAYOUT_3POINT1");
    (CHANNEL_LAYOUT_4POINT0, "CHANNEL_LAYOUT_4POINT0");
    (CHANNEL_LAYOUT_4POINT1, "CHANNEL_LAYOUT_4POINT1");
    (CHANNEL_LAYOUT_2_2, "CHANNEL_LAYOUT_2_2");
    (CHANNEL_LAYOUT_QUAD, "CHANNEL_LAYOUT_QUAD");
    (CHANNEL_LAYOUT_5POINT0, "CHANNEL_LAYOUT_5POINT0");
    (CHANNEL_LAYOUT_5POINT1, "CHANNEL_LAYOUT_5POINT1");
    (CHANNEL_LAYOUT_5POINT0_BACK, "CHANNEL_LAYOUT_5POINT0_BACK");
    (CHANNEL_LAYOUT_5POINT1_BACK, "CHANNEL_LAYOUT_5POINT1_BACK");
    (CHANNEL_LAYOUT_6POINT0, "CHANNEL_LAYOUT_6POINT0");
    (CHANNEL_LAYOUT_6POINT0_FRONT, "CHANNEL_LAYOUT_6POINT0_FRONT");
    (CHANNEL_LAYOUT_HEXAGONAL, "CHANNEL_LAYOUT_HEXAGONAL");
    (CHANNEL_LAYOUT_6POINT1, "CHANNEL_LAYOUT_6POINT1");
    (CHANNEL_LAYOUT_6POINT1_BACK, "CHANNEL_LAYOUT_6POINT1_BACK");
    (CHANNEL_LAYOUT_6POINT1_FRONT, "CHANNEL_LAYOUT_6POINT1_FRONT");
    (CHANNEL_LAYOUT_7POINT0, "CHANNEL_LAYOUT_7POINT0");
    (CHANNEL_LAYOUT_7POINT0_FRONT, "CHANNEL_LAYOUT_7POINT0_FRONT");
    (CHANNEL_LAYOUT_7POINT1, "CHANNEL_LAYOUT_7POINT1");
    (CHANNEL_LAYOUT_7POINT1_WIDE, "CHANNEL_LAYOUT_7POINT1_WIDE");
    (CHANNEL_LAYOUT_7POINT1_WIDE_BACK, "CHANNEL_LAYOUT_7POINT1_WIDE_BACK");
    (CHANNEL_LAYOUT_OCTAGONAL, "CHANNEL_LAYOUT_OCTAGONAL");
    (CHANNEL_LAYOUT_HEXADECAGONAL, "CHANNEL_LAYOUT_HEXADECAGONAL");
    (CHANNEL_LAYOUT_STEREO_DOWNMIX, "CHANNEL_LAYOUT_STEREO_DOWNMIX");
    (CHANNEL_LAYOUT_22POINT2, "CHANNEL_LAYOUT_22POINT2");
    (CHANNEL_LAYOUT_AMBISONIC_FIRST_ORDER, "CHANNEL_LAYOUT_AMBISONIC_FIRST_ORDER") ].

(** Whether a string is free of the delimiter of [String]. *)
Fixpoint no_bar (s : string) : bool :=
  match s with
  | String.EmptyString => true
  | String.String c rest => negb (Ascii.eqb c "|"%char) && no_bar rest
  end.

(** More to count in a trace. *)
Definition is_release (e : event) : bool :=
  match e with EvRelease => true | _ => false end.

Definition is_failed_handler (e : event) : bool :=
  match e with EvHandler _ (Some _) => true | _ => false end.

(** The packets a trace has read, in order. *)
Fixpoint packets_read (tr : list event) : list packet :=
  match tr with
  | [] => []
  | EvRead (inl p) :: rest => p :: packets_read rest
  | _ :: rest => packets_read rest
  end.

(** A media whose [Close()] releases it from the registry and returns [e],
    as the media the manager opened do through their callback. *)
Definition releasing_Close (e : positive -> error) (h : positive) (m : manager)
  : manager * error :=
  ((release h m).1, e h).

(** ** Sample data

    Concrete media, handlers and contexts on which the statements below are
    run. *)

(** A manager that opened three media, the second of which fails to close. *)
Definition three_open : manager :=
  (OpenFile (OpenFile (OpenFile New (inl 1%positive)).1 (inl 2%positive)).1
     (inl 3%positive)).1.

Definition second_fails (h : positive) (m : manager) : manager * error :=
  if (h =? 2)%positive then (m, Some (Plain (ErrExternal "close")))
  else release h m.

Definition video0 : Stream := {| Index := 0; Flags := MEDIA_FLAG_VIDEO |}.
Definition audio1 : Stream := {| Index := 1; Flags := MEDIA_FLAG_AUDIO |}.
Definition subtitle2 : Stream := {| Index := 2; Flags := MEDIA_FLAG_SUBTITLE |}.
Definition subtitle3 : Stream := {| Index := 3; Flags := MEDIA_FLAG_SUBTITLE |}.

Definition pk (stream : nat) (pos : N) : packet :=
  {| pkt_stream := stream; pkt_pos := pos |}.

(** One video, one audio and two subtitle streams; four packets, one per
    stream, then the end of the stream. *)
Definition sample_input : input :=
  {| in_streams := [video0; audio1; subtitle2; subtitle3];
     in_container := {| packets := [pk 0 0; pk 1 100; pk 2 200; pk 3 300];
                        read_end := io_EOF |} |}.

Definition sample_dm : decodemap :=
  {| dm_input := input_ptr (Some sample_input);
     dm_streams := select_streams MEDIA_FLAG_NONE ∅ (in_streams sample_input);
     dm_packet := Some {| held := None |} |}.

(** A handler that counts its calls, and one that fails on call [k]. *)
Definition count_calls (n : nat) (_ : packet) : nat * error := (S n, None).

Definition fail_at (k : nat) (n : nat) (_ : packet) : nat * error :=
  (S n, if (n =? k)%nat then Some (Plain (ErrExternal "handler")) else None).

Definition background : Context :=
  {| done_from := None; reason := context_Canceled |}.

Definition cancelled_from (k : nat) : Context :=
  {| done_from := Some k; reason := context_Canceled |}.

Definition close_ok (_ : decodemap) : error := None.
Definition close_fails (_ : decodemap) : error := Some (Plain (ErrExternal "close")).

(** The conversion of [Test_manager_000]: one second of mono unsigned bytes
    at 48 kHz, asked as doubles at 44.1 kHz; the layout is left to the
    source. The resampler is taken to produce the second in one buffer. *)
Definition test_input : AudioFrame :=
  {| frame_format := {| Rate := 48000; Format := SAMPLE_FORMAT_U8;
                        Layout := CHANNEL_LAYOUT_MONO |};
     frame_samples := 48000 |}.

Definition test_target : AudioFormat :=
  {| Rate := 44100; Format := SAMPLE_FORMAT_DBL; Layout := 0 |}.

Definition one_buffer (inp : AudioFrame) (target : AudioFormat) : list AudioFrame :=
  [ {| frame_format :=
         {| Rate := Rate target; Format := Format target;
            Layout := if Layout target =? 0 then Layout (frame_format inp)
                      else Layout target |};
       frame_samples := Rate target |} ].

(** A resampler that has not accumulated a full buffer yet. *)
Definition no_buffer (inp : AudioFrame) (target : AudioFormat) : list AudioFrame := [].

(** A stream flagged as video and audio at once. *)
Definition video_audio1 : Stream :=
  {| Index := 1; Flags := N.lor MEDIA_FLAG_VIDEO MEDIA_FLAG_AUDIO |}.

Definition answer_EOF (n : nat) (_ : AudioFrame) : nat * error :=
  (S n, Some (Plain io_EOF)).

Definition answer_failure (n : nat) (_ : AudioFrame) : nat * error :=
  (S n, Some (Plain (ErrExternal "callback"))).

(** The sample media on a container that breaks after its second packet. *)
Definition broken_input : input :=
  {| in_streams := in_streams sample_input;
     in_container := {| packets := [pk 0 0; pk 1 100];
                        read_end := ErrExternal "read" |} |}.

Definition broken_dm : decodemap :=
  {| dm_input := input_ptr (Some broken_input);
     dm_streams := dm_streams sample_dm;
     dm_packet := Some {| held := None |} |}.

(** * Properties *)

(** ** Strings *)

Lemma string_app_cons (ch : Ascii.ascii) (a b : string) :
  (String ch a +:+ b = String ch (a +:+ b))%string.
Proof. reflexivity. Qed.

Lemma string_app_assoc (a b c : string) : ((a +:+ b) +:+ c = a +:+ b +:+ c)%string.
Proof.
  induction a as [|ch a IH]; [reflexivity |].
  now rewrite !string_app_cons, IH.
Qed.

Lemma string_app_nil_r (a : string) : (a +:+ "" = a)%string.
Proof.
  induction a as [|ch a IH]; [reflexivity |].
  now rewrite string_app_cons, IH.
Qed.

(** ** MediaFlag: bits *)

Lemma named_flags_pow2 : named_flags = map pow2_flag (seq 0 15).
Proof. reflexivity. Qed.

Lemma named_flag_inv (v : MediaFlag) :
  v ∈ named_flags -> exists k, (k < 15)%nat /\ v = pow2_flag k.
Proof.
  rewrite named_flags_pow2, list_elem_of_In, in_map_iff.
  intros (k & <- & Hk). apply in_seq in Hk. exists k. split; [lia | reflexivity].
Qed.

Lemma pow2_flag_named (k : nat) : (k < 15)%nat -> pow2_flag k ∈ named_flags.
Proof.
  intros Hk. rewrite named_flags_pow2, list_elem_of_In, in_map_iff.
  exists k. split; [reflexivity | apply in_seq; lia].
Qed.

Lemma Is_pow2_testbit (f : MediaFlag) (k : nat) :
  MediaFlag.Is f (pow2_flag k) = N.testbit f (N.of_nat k).
Proof.
  unfold MediaFlag.Is, pow2_flag. set (i := N.of_nat k).
  destruct (N.testbit f i) eqn:Hbit.
  - apply N.eqb_eq, N.bits_inj. intros j.
    rewrite N.land_spec, N.pow2_bits_eqb.
    destruct (N.eqb_spec i j) as [<- | _]; [now rewrite Hbit | apply andb_false_r].
  - apply N.eqb_neq. intros Heq.
    assert (Hk : N.testbit (N.land f (2 ^ i)) i = true)
      by (rewrite Heq; apply N.pow2_bits_true).
    rewrite N.land_spec, Hbit in Hk. discriminate.
Qed.

Lemma flag_or_testbit (S : list MediaFlag) (i : N) :
  N.testbit (flag_or S) i = existsb (fun s => N.testbit s i) S.
Proof.
  induction S as [|s S IH].
  - apply N.bits_0.
  - cbn [flag_or fold_right existsb]. rewrite N.lor_spec. f_equal. exact IH.
Qed.

Lemma pow2_flag_inj (j k : nat) : pow2_flag j = pow2_flag k -> j = k.
Proof.
  unfold pow2_flag. intros Heq.
  apply N.pow_inj_r in Heq; lia.
Qed.

Lemma named_mask_ones : named_mask = N.ones 15.
Proof. reflexivity. Qed.

(** Some named bit is set as soon as the value meets the mask. *)
Lemma named_bit_of_mask (f : MediaFlag) :
  N.land f named_mask <> 0 ->
  exists k, (k < 15)%nat /\ MediaFlag.Is f (pow2_flag k) = true.
Proof.
  intros Hne. apply N.bit_log2 in Hne.
  set (i := N.log2 (N.land f named_mask)) in Hne.
  rewrite N.land_spec, named_mask_ones in Hne.
  apply andb_true_iff in Hne as [Hf Hm].
  apply N.ones_spec_iff in Hm.
  exists (N.to_nat i). split; [lia |].
  rewrite Is_pow2_testbit, N2Nat.id. exact Hf.
Qed.

Lemma no_named_bit_of_mask (f : MediaFlag) (k : nat) :
  N.land f named_mask = 0 -> (k < 15)%nat -> MediaFlag.Is f (pow2_flag k) = false.
Proof.
  intros Hz Hk. rewrite Is_pow2_testbit.
  assert (Hb : N.testbit (N.land f named_mask) (N.of_nat k) = false)
    by (rewrite Hz; apply N.bits_0).
  rewrite N.land_spec, named_mask_ones, N.ones_spec_low, andb_true_r in Hb by lia.
  exact Hb.
Qed.

(** C9. For every subset [S] of the named flags, the bitwise OR of [S]
    tested with [Is] answers true for exactly the named flags that are
    members of [S], and false for every other named flag. *)
Theorem Is_flag_or_members (S : list MediaFlag) (v : MediaFlag) :
  (forall s, s ∈ S -> s ∈ named_flags) ->
  v ∈ named_flags ->
  (v ∈ S -> MediaFlag.Is (flag_or S) v = true) /\
  (v ∉ S -> MediaFlag.Is (flag_or S) v = false).
Proof.
  intros HS Hv. apply named_flag_inv in Hv as (k & Hk & ->).
  rewrite Is_pow2_testbit, flag_or_testbit. split.
  - intros Hin. apply existsb_exists. exists (pow2_flag k). split.
    + now apply list_elem_of_In.
    + apply N.pow2_bits_true.
  - intros Hnin. apply not_true_is_false. intros Hex.
    apply existsb_exists in Hex as (s & Hs & Hbit).
    apply list_elem_of_In in Hs.
    destruct (named_flag_inv s (HS s Hs)) as (j & _ & ->).
    unfold pow2_flag in Hbit. rewrite N.pow2_bits_eqb in Hbit.
    apply N.eqb_eq, Nat2N.inj in Hbit. subst j. contradiction.
Qed.

Lemma Is_flag_or_members_witness :
  MediaFlag.Is (flag_or [MEDIA_FLAG_VIDEO; MEDIA_FLAG_AUDIO]) MEDIA_FLAG_AUDIO = true /\
  MediaFlag.Is (flag_or [MEDIA_FLAG_VIDEO; MEDIA_FLAG_AUDIO]) MEDIA_FLAG_DATA = false.
Proof.
  assert (HS : forall s, s ∈ [MEDIA_FLAG_VIDEO; MEDIA_FLAG_AUDIO] -> s ∈ named_flags).
  { intros s Hs. apply list_elem_of_In in Hs. apply list_elem_of_In.
    destruct Hs as [<- | [<- | []]]; vm_compute; tauto. }
  split.
  - apply (Is_flag_or_members [MEDIA_FLAG_VIDEO; MEDIA_FLAG_AUDIO] MEDIA_FLAG_AUDIO HS).
    + apply list_elem_of_In. vm_compute. tauto.
    + apply list_elem_of_In. vm_compute. tauto.
  - apply (Is_flag_or_members [MEDIA_FLAG_VIDEO; MEDIA_FLAG_AUDIO] MEDIA_FLAG_DATA HS).
    + apply list_elem_of_In. vm_compute. tauto.
    + intros Hin. apply list_elem_of_In in Hin.
      destruct Hin as [Heq | [Heq | []]]; vm_compute in Heq; discriminate.
Defined.

(** ** MediaFlag: the loop of [String] *)

Lemma MEDIA_FLAG_MAX_pow2 : MEDIA_FLAG_MAX = pow2_flag 14.
Proof. reflexivity. Qed.

Lemma pow2_flag_le_MAX (k : nat) :
  (k < 15)%nat -> (pow2_flag k <=? MEDIA_FLAG_MAX) = true.
Proof.
  intros Hk. apply N.leb_le. rewrite MEDIA_FLAG_MAX_pow2.
  unfold pow2_flag. apply N.pow_le_mono_r; lia.
Qed.

Lemma pow2_flag_shl (k : nat) :
  (k < 15)%nat -> uint_shl (pow2_flag k) 1 = pow2_flag (S k).
Proof.
  intros Hk. unfold uint_shl, uint_wrap, pow2_flag, uint_size.
  rewrite N.shiftl_mul_pow2, <- N.pow_add_r.
  replace (N.of_nat k + 1) with (N.of_nat (S k)) by lia.
  apply N.mod_small, N.pow_lt_mono_r; lia.
Qed.

(** Started at bit [k] with enough fuel, the loop visits the flags from bit
    [k] to the last named one, in order, and stops. *)
Lemma String_loop_from (f : MediaFlag) (n : nat) :
  forall (k fuel : nat) (str : string),
    (k + n = 15)%nat -> (n <= fuel)%nat ->
    MediaFlag.String_loop fuel f (pow2_flag k) str
    = Some (fold_left (MediaFlag.String_step f) (map pow2_flag (seq k n)) str).
Proof.
  induction n as [|n IH]; intros k fuel str Hk Hfuel.
  - assert (k = 15)%nat as -> by lia.
    destruct fuel; reflexivity.
  - destruct fuel as [|fuel]; [lia |].
    cbn [MediaFlag.String_loop seq map fold_left].
    rewrite pow2_flag_le_MAX, pow2_flag_shl by lia.
    apply IH; lia.
Qed.

Lemma String_loop_all (f : MediaFlag) :
  MediaFlag.String_loop (N.to_nat uint_size) f 1 ""
  = Some (fold_left (MediaFlag.String_step f) named_flags "").
Proof.
  rewrite named_flags_pow2.
  change 1 with (pow2_flag 0).
  apply String_loop_from; [reflexivity |].
  unfold uint_size. lia.
Qed.

(** The loop is total: the fuel of [String] is never exhausted. *)
Lemma String_never_out_of_fuel (f : MediaFlag) : MediaFlag.String f <> OutOfFuel.
Proof.
  unfold MediaFlag.String. destruct (f =? MEDIA_FLAG_NONE); [discriminate |].
  rewrite String_loop_all.
  destruct (fold_left _ _ _) as [|ch s]; cbn; [discriminate |].
  discriminate.
Qed.

(** What the loop has appended: a delimiter and a name per set flag. *)
Lemma String_fold_filter (f : MediaFlag) (vs : list MediaFlag) (str : string) :
  fold_left (MediaFlag.String_step f) vs str
  = (str +:+ fold_right (fun v acc => "|" +:+ MediaFlag.FlagString v +:+ acc) ""
               (List.filter (MediaFlag.Is f) vs))%string.
Proof.
  revert str. induction vs as [|v vs IH]; intros str.
  - cbn. now rewrite string_app_nil_r.
  - cbn [fold_left List.filter]. rewrite IH. unfold MediaFlag.String_step.
    destruct (MediaFlag.Is f v); [| reflexivity].
    cbn [fold_right]. now rewrite !string_app_assoc.
Qed.

Lemma join_delimited (s : string) (names : list string) :
  (fold_right (fun s acc => "|" +:+ s +:+ acc) "" (s :: names)
   = "|" +:+ String.concat "|" (s :: names))%string.
Proof.
  revert s. induction names as [|s' names IH]; intros s.
  - cbn. now rewrite string_app_nil_r.
  - change (fold_right (fun s acc => "|" +:+ s +:+ acc) "" (s :: s' :: names))%string
      with ("|" +:+ s +:+
            fold_right (fun s acc => "|" +:+ s +:+ acc) "" (s' :: names))%string.
    rewrite IH. reflexivity.
Qed.

Lemma fold_right_names (vs : list MediaFlag) :
  fold_right (fun v acc => "|" +:+ MediaFlag.FlagString v +:+ acc)%string "" vs
  = fold_right (fun s acc => "|" +:+ s +:+ acc)%string "" (map MediaFlag.FlagString vs).
Proof. induction vs as [|v vs IH]; [reflexivity |]. cbn [fold_right map]. now rewrite IH. Qed.

(** The renderings on a few values. *)
Example String_none : MediaFlag.String MEDIA_FLAG_NONE = Returns "MEDIA_FLAG_NONE".
Proof. reflexivity. Qed.

Example String_video_audio :
  MediaFlag.String (N.lor MEDIA_FLAG_AUDIO MEDIA_FLAG_VIDEO)
  = Returns "MEDIA_FLAG_VIDEO|MEDIA_FLAG_AUDIO".
Proof. vm_compute. reflexivity. Qed.

Example FlagString_of_two_bits :
  MediaFlag.FlagString (N.lor MEDIA_FLAG_AUDIO MEDIA_FLAG_VIDEO) = invalid_flag_marker.
Proof. reflexivity. Qed.

Lemma filter_none {A : Type} (p : A -> bool) (l : list A) :
  (forall x, In x l -> p x = false) -> List.filter p l = [].
Proof.
  induction l as [|x l IH]; intros Hall; [reflexivity |].
  cbn [List.filter]. rewrite (Hall x) by (left; reflexivity).
  apply IH. intros y Hy. apply Hall. right. exact Hy.
Qed.

Lemma FlagString_named (v : MediaFlag) :
  v ∈ named_flags -> MediaFlag.FlagString v <> invalid_flag_marker.
Proof.
  intros Hv. apply list_elem_of_In in Hv.
  repeat (destruct Hv as [<- | Hv]; [vm_compute; discriminate |]).
  destruct Hv.
Qed.

(** C2, as amended. The zero value renders as the "none" token. A value
    with at least one named bit set renders as the names of its set named
    bits, in enumeration order, joined by the delimiter: bits above
    [MEDIA_FLAG_MAX] are left out of the rendering, and no name in it is
    the invalid marker. *)
Theorem String_renders_named_bits (f : MediaFlag) :
  (f = MEDIA_FLAG_NONE -> MediaFlag.String f = Returns "MEDIA_FLAG_NONE") /\
  (N.land f named_mask <> 0 ->
     MediaFlag.String f = Returns (render_names f) /\
     invalid_flag_marker ∉ set_names f).
Proof.
  split; [intros ->; reflexivity |].
  intros Hmask. split.
  - assert (Hf : (f =? MEDIA_FLAG_NONE) = false).
    { apply N.eqb_neq. intros ->. apply Hmask. reflexivity. }
    unfold MediaFlag.String. rewrite Hf, String_loop_all, String_fold_filter.
    rewrite fold_right_names. unfold render_names, set_names.
    destruct (named_bit_of_mask f Hmask) as (k & Hk & HIs).
    assert (Hin : In (pow2_flag k) (List.filter (MediaFlag.Is f) named_flags)).
    { apply filter_In. split; [| exact HIs].
      apply list_elem_of_In, pow2_flag_named, Hk. }
    destruct (List.filter (MediaFlag.Is f) named_flags) as [|v vs]; [destruct Hin |].
    cbn [map]. rewrite join_delimited. reflexivity.
  - unfold set_names. rewrite list_elem_of_In, in_map_iff.
    intros (v & Hname & Hv). apply filter_In in Hv as [Hv _].
    apply list_elem_of_In in Hv. exact (FlagString_named v Hv Hname).
Qed.

Lemma String_renders_named_bits_witness :
  MediaFlag.String 0 = Returns "MEDIA_FLAG_NONE" /\
  MediaFlag.String (N.lor MEDIA_FLAG_AUDIO MEDIA_FLAG_VIDEO)
  = Returns "MEDIA_FLAG_VIDEO|MEDIA_FLAG_AUDIO".
Proof.
  split.
  - apply (String_renders_named_bits 0). reflexivity.
  - apply (String_renders_named_bits (N.lor MEDIA_FLAG_AUDIO MEDIA_FLAG_VIDEO)).
    vm_compute. discriminate.
Defined.

(** C2, as stated, fails: a value with the unnamed bit 15 and the album bit
    renders as the album name alone; the unnamed bit is dropped and no
    invalid marker appears. *)
Lemma String_drops_unrecognized_bits :
  has_unrecognized_bits (N.lor (uint_shl 1 15) MEDIA_FLAG_ALBUM) = true /\
  MediaFlag.String (N.lor (uint_shl 1 15) MEDIA_FLAG_ALBUM) = Returns "MEDIA_FLAG_ALBUM" /\
  MediaFlag.String (N.lor (uint_shl 1 15) MEDIA_FLAG_ALBUM)
  <> Returns invalid_flag_marker.
Proof.
  split; [reflexivity |]. split; [reflexivity |].
  vm_compute. discriminate.
Qed.

(** C10, on the code. A non-zero value with no named bit set makes the loop
    append nothing, and [str[1:]] on the empty string panics. *)
Theorem String_panics_without_named_bit (f : MediaFlag) :
  f <> MEDIA_FLAG_NONE ->
  N.land f named_mask = 0 ->
  MediaFlag.String f = Panics "slice bounds out of range".
Proof.
  intros Hf Hmask. apply N.eqb_neq in Hf.
  unfold MediaFlag.String. rewrite Hf, String_loop_all, String_fold_filter.
  rewrite filter_none; [reflexivity |].
  intros v Hv. apply list_elem_of_In, named_flag_inv in Hv as (k & Hk & ->).
  now apply no_named_bit_of_mask.
Qed.

Lemma String_panics_without_named_bit_witness :
  MediaFlag.String (uint_shl 1 15) = Panics "slice bounds out of range".
Proof.
  apply (String_panics_without_named_bit (uint_shl 1 15)).
  - vm_compute. discriminate.
  - reflexivity.
Defined.

(** ** Manager.Close *)

Section CloseProperties.

Variable Media_Close : positive -> manager -> manager * error.

(** The loop calls [Close()] on the keys one by one, in order, whatever
    the calls return or do to the registry; the result collects the
    members of every failure. *)
Lemma Close_loop_spec (keys : list positive) :
  forall (m : manager) (result : error) m' r log,
    Close_loop Media_Close keys m result = (m', r, log) ->
    log.*1 = keys /\
    multierror.flatten r
    = multierror.flatten result ++ concat (map (fun x => multierror.flatten x.2) log) /\
    (r = None <-> result = None /\ Forall (fun x => x.2 = None) log).
Proof.
  induction keys as [|h keys IH]; intros m result m' r log Hrun.
  - cbn in Hrun. injection Hrun as <- <- <-.
    split; [reflexivity |]. split; [cbn; now rewrite app_nil_r |].
    split; [intros ->; split; [reflexivity | constructor] | now intros [-> _]].
  - cbn [Close_loop] in Hrun.
    destruct (Media_Close h m) as [m1 e].
    destruct (Close_loop Media_Close keys m1 _) as [[m2 r2] log2] eqn:Hrec.
    injection Hrun as <- <- <-.
    apply IH in Hrec as (Hkeys & Hflat & Hnil).
    split; [cbn; now rewrite Hkeys |].
    destruct e as [e|]; cbn [record_error] in Hflat, Hnil.
    + split.
      * rewrite Hflat.
        cbn [multierror.Append multierror.flatten map concat snd].
        now rewrite <- app_assoc.
      * split.
        -- intros Hr. apply Hnil in Hr as [Hr _]. discriminate.
        -- intros [_ Hall]. inversion Hall as [|? ? Hhd _]. discriminate.
    + split.
      * rewrite Hflat. reflexivity.
      * rewrite Hnil. split.
        -- intros [-> Hall]. split; [reflexivity | now constructor].
        -- intros [-> Hall]. inversion Hall. now split.
Qed.

Lemma flatten_inspect (e : error) : multierror.flatten e = inspect e.
Proof. now destruct e as [[x | es]|]. Qed.

Lemma aggregate_of_members (results : list error) :
  inspect (aggregate_of results) = concat (map inspect results).
Proof.
  unfold aggregate_of. destruct (forallb is_nil results) eqn:Hall; [| reflexivity].
  induction results as [|e results IH]; [reflexivity |].
  cbn in Hall. apply andb_true_iff in Hall as [He Hall].
  destruct e; [discriminate |]. cbn. now apply IH.
Qed.

(** Recording one more result keeps the aggregate of all of them. *)
Lemma record_error_aggregate (results : list error) (e : error) :
  record_error (aggregate_of results) e = aggregate_of (results ++ [e]).
Proof.
  destruct e as [x|].
  - cbn [record_error]. unfold multierror.Append.
    rewrite !flatten_inspect, aggregate_of_members.
    unfold aggregate_of at 1. rewrite forallb_app. cbn [forallb is_nil].
    rewrite andb_false_r, map_app, concat_app. cbn. now rewrite app_nil_r.
  - cbn [record_error]. unfold aggregate_of.
    rewrite forallb_app, map_app, concat_app. cbn. now rewrite andb_true_r, !app_nil_r.
Qed.

(** The loop makes the chain of calls over the keys, in order, and ends
    with the aggregate of what was recorded before and of what the calls
    returned. *)
Lemma Close_loop_chain (keys : list positive) :
  forall (m : manager) (before : list error),
  exists calls m',
    close_chain Media_Close m calls m' /\
    calls.*1 = keys /\
    Close_loop Media_Close keys m (aggregate_of before)
    = (m', aggregate_of (before ++ calls.*2), calls).
Proof.
  induction keys as [|h keys IH]; intros m before.
  - exists [], m. split; [constructor |]. split; [reflexivity |].
    cbn. now rewrite app_nil_r.
  - cbn [Close_loop]. destruct (Media_Close h m) as [m1 e] eqn:Hcall.
    rewrite record_error_aggregate.
    destruct (IH m1 (before ++ [e])) as (calls & m' & Hchain & Hkeys & Hrun).
    exists ((h, e) :: calls), m'. split; [econstructor; eassumption |].
    split; [cbn; now rewrite Hkeys |].
    rewrite Hrun. cbn. now rewrite <- app_assoc.
Qed.

Lemma aggregate_of_nil_iff (results : list error) :
  aggregate_of results = None <-> Forall (fun e => e = None) results.
Proof.
  unfold aggregate_of. destruct (forallb is_nil results) eqn:Hall.
  - split; [intros _ | reflexivity]. apply Forall_forall. intros e He.
    rewrite forallb_forall in Hall. apply list_elem_of_In, Hall in He. now destruct e.
  - split; [discriminate |]. intros HF. exfalso.
    assert (Htrue : forallb is_nil results = true).
    { apply forallb_forall. intros e He. rewrite Forall_forall in HF.
      apply list_elem_of_In, HF in He. now subst e. }
    congruence.
Qed.

(** C8. [Close] calls [Close()] on every tracked media exactly once, and
    on nothing else, one call after the other whatever the calls return;
    what it returns is the aggregate of the failures of those calls, each
    error of each failed call standing in it, and it is nil exactly when
    every call returned nil. *)
Theorem Close_attempts_all_and_aggregates (m : manager) (keys : list positive) :
  range_keys m keys ->
  exists calls m',
    close_chain Media_Close m calls m' /\
    calls.*1 = keys /\
    NoDup calls.*1 /\
    (forall h, h ∈ calls.*1 <-> is_Some (media m !! h)) /\
    Close Media_Close keys m = (m', aggregate_of calls.*2, calls) /\
    (aggregate_of calls.*2 = None <-> forall h e, (h, e) ∈ calls -> e = None).
Proof.
  intros Hrange. unfold range_keys in Hrange.
  destruct (Close_loop_chain keys m []) as (calls & m' & Hchain & Hkeys & Hrun).
  exists calls, m'. split; [exact Hchain |]. split; [exact Hkeys |].
  rewrite Hkeys. split; [| split; [| split]].
  - rewrite Hrange. apply NoDup_fst_map_to_list.
  - intros h. rewrite Hrange, list_elem_of_fmap. split.
    + intros ([h' b] & -> & Hin). apply elem_of_map_to_list in Hin. now exists b.
    + intros [b Hb]. exists (h, b). split; [reflexivity |].
      now apply elem_of_map_to_list.
  - exact Hrun.
  - rewrite aggregate_of_nil_iff, Forall_forall. split.
    + intros Hall h e Hin. apply Hall, list_elem_of_fmap. now exists (h, e).
    + intros Hall e He. apply list_elem_of_fmap in He as ([h e'] & -> & Hin).
      exact (Hall h e' Hin).
Qed.

End CloseProperties.

Lemma Close_attempts_all_and_aggregates_witness :
  (exists calls m',
     close_chain second_fails three_open calls m' /\
     calls.*1 = [1; 2; 3]%positive /\
     NoDup calls.*1 /\
     (forall h, h ∈ calls.*1 <-> is_Some (media three_open !! h)) /\
     Close second_fails [1; 2; 3]%positive three_open
     = (m', aggregate_of calls.*2, calls) /\
     (aggregate_of calls.*2 = None <-> forall h e, (h, e) ∈ calls -> e = None)) /\
  (Close second_fails [1; 2; 3]%positive three_open).1.2
  = Some (Aggregate [ErrExternal "close"]) /\
  (Close second_fails [1; 2; 3]%positive three_open).2
  = [(1%positive, None); (2%positive, Some (Plain (ErrExternal "close")));
     (3%positive, None)].
Proof.
  split; [| split; reflexivity].
  apply (Close_attempts_all_and_aggregates second_fails three_open [1; 2; 3]%positive).
  unfold range_keys. apply (bool_decide_unpack _). vm_compute. exact I.
Defined.

(** Three open media, the second failing: all three are attempted and the
    aggregate holds exactly the one failure. *)
Example Close_three_second_fails :
  let '(_, r, log) := Close second_fails [1; 2; 3]%positive three_open in
  log.*1 = [1; 2; 3]%positive /\ r = Some (Aggregate [ErrExternal "close"]).
Proof. vm_compute. split; reflexivity. Qed.

(** ** Manager.Decode *)

Section DecodeProperties.

Context {St : Type}.
Variable fn : St -> packet -> St * error.
Variable decodemap_Close : decodemap -> error.

(** A call that fails the parameter checks does nothing observable. *)
Lemma Decode_rejected (ctx : Context) (media_map : Map) (h : St) :
  session_of media_map = None ->
  (Decode fn decodemap_Close ctx media_map h).1.2 = [] /\ (Decode fn decodemap_Close ctx media_map h).2 = h /\
  forall e, (Decode fn decodemap_Close ctx media_map h).1.1 = Returns e ->
            exists what, e = Some (Plain (ErrBadParameter what)).
Proof.
  intros Hnone. unfold Decode, session_of in *.
  destruct media_map as [dm | i]; cbn [Map_Input].
  - destruct (dm_input dm) as [|[i|]|]; cbn; try (repeat split; eauto; intros e [= <-]; eauto).
    destruct (dm_packet dm); [discriminate |].
    repeat split. intros e [= <-]. eauto.
  - destruct i as [|[i|]|]; cbn; repeat split; try discriminate;
      intros e [= <-]; eauto.
Qed.

(** A call that passes them runs the loop on the container of the input,
    and closes the map when the loop was left by [break]. *)
Lemma Decode_session (ctx : Context) (media_map : Map) (h : St) dm i :
  session_of media_map = Some (dm, i) ->
  Decode fn decodemap_Close ctx media_map h
  = match Decode_loop fn ctx dm (packets (in_container i)) (read_end (in_container i))
            0 None h with
    | (ExitReturn e, tr, h1) => (Returns e, tr, h1)
    | (ExitBreak result, tr, h1) =>
        (Returns (record_error result (decodemap_Close dm)),
         tr ++ [EvClose (decodemap_Close dm)], h1)
    end.
Proof.
  intros Hs. unfold session_of in Hs.
  destruct media_map as [dm' | ?]; [| discriminate].
  destruct (dm_input dm') as [|[i'|]|] eqn:Hin; try discriminate.
  destruct (dm_packet dm') eqn:Hp; [| discriminate].
  injection Hs as -> ->.
  unfold Decode. cbn [Map_Input]. rewrite Hin, Hp. reflexivity.
Qed.

(** One iteration of the loop. *)
Lemma Decode_loop_eq ctx dm reads fin t result h :
  Decode_loop fn ctx dm reads fin t result h
  = match ctx_Err ctx t with
    | Some e => (ExitReturn (Some e), [], h)
    | None =>
        match reads with
        | [] =>
            (ExitBreak (if is_io_EOF fin then result
                        else multierror.Append result (Some (Plain fin))),
             [EvRead (inr fin)], h)
        | p :: rest =>
            let '(h1, r, evs) := decodemap_Decode fn dm h p in
            match r with
            | Some _ =>
                (ExitBreak (multierror.Append result r), EvRead (inl p) :: evs, h1)
            | None =>
                let '(ex, tr, h2) :=
                  Decode_loop fn ctx dm rest fin (S t) result h1 in
                (ex, EvRead (inl p) :: evs ++ EvRelease :: tr, h2)
            end
        end
    end.
Proof. destruct reads; reflexivity. Qed.

(** What the dispatch of one packet leaves in the trace. *)
Lemma decodemap_Decode_events dm h p h1 r evs :
  decodemap_Decode fn dm h p = (h1, r, evs) ->
  (selected dm p = true /\ evs = [EvHandler p r]) \/
  (selected dm p = false /\ evs = [] /\ r = None /\ h1 = h).
Proof.
  unfold decodemap_Decode. destruct (selected dm p).
  - destruct (fn h p) as [h' r']. intros [= <- <- <-]. left. auto.
  - intros [= <- <- <-]. right. auto.
Qed.

End DecodeProperties.

Lemma count_events_app (f : event -> bool) (a b : list event) :
  count_events f (a ++ b) = (count_events f a + count_events f b)%nat.
Proof. unfold count_events. now rewrite List.filter_app, length_app. Qed.

Lemma count_events_cons (f : event -> bool) (e : event) (a : list event) :
  count_events f (e :: a) = ((if f e then 1 else 0) + count_events f a)%nat.
Proof. unfold count_events. cbn [List.filter]. destruct (f e); reflexivity. Qed.

Section DecodeLoopProperties.

Context {St : Type}.
Variable fn : St -> packet -> St * error.
Variable ctx : Context.
Variable dm : decodemap.
Variable fin : err.

(** Cancelled from the start: the loop is left at once, by [return]. *)
Lemma Decode_loop_cancelled reads t result h :
  ctx_Err ctx t <> None ->
  Decode_loop fn ctx dm reads fin t result h = (ExitReturn (ctx_Err ctx t), [], h).
Proof.
  intros Hc. rewrite Decode_loop_eq. destruct (ctx_Err ctx t); congruence.
Qed.

(** The loop itself never closes the map. *)
Lemma Decode_loop_no_close reads :
  forall t result h ex tr h',
    Decode_loop fn ctx dm reads fin t result h = (ex, tr, h') ->
    count_events is_close tr = 0%nat.
Proof.
  induction reads as [|p rest IH]; intros t result h ex tr h' Hrun;
    rewrite Decode_loop_eq in Hrun; destruct (ctx_Err ctx t);
    try (injection Hrun as <- <- <-; reflexivity).
  destruct (decodemap_Decode fn dm h p) as [[h1 r] evs] eqn:Hd.
  apply decodemap_Decode_events in Hd.
  destruct r as [e|].
  - injection Hrun as <- <- <-.
    destruct Hd as [[_ ->] | (_ & -> & _)]; reflexivity.
  - destruct (Decode_loop fn ctx dm rest fin (S t) result h1) as [[ex2 tr2] h2] eqn:Hrec.
    injection Hrun as <- <- <-. apply IH in Hrec.
    rewrite count_events_cons, count_events_app, count_events_cons, Hrec.
    destruct Hd as [[_ ->] | (_ & -> & _)]; reflexivity.
Qed.

(** Left by [return]: the context was done, and its error is returned. *)
Lemma Decode_loop_return reads :
  forall t result h e tr h',
    Decode_loop fn ctx dm reads fin t result h = (ExitReturn e, tr, h') ->
    exists k, ctx_Err ctx k = e /\ e <> None.
Proof.
  induction reads as [|p rest IH]; intros t result h e tr h' Hrun;
    rewrite Decode_loop_eq in Hrun; destruct (ctx_Err ctx t) as [c|] eqn:Hc;
    try (injection Hrun as <- <- <-; exists t; split; [exact Hc | discriminate]);
    try discriminate.
  destruct (decodemap_Decode fn dm h p) as [[h1 r] evs].
  destruct r as [e'|]; [discriminate |].
  destruct (Decode_loop fn ctx dm rest fin (S t) result h1) as [[ex2 tr2] h2] eqn:Hrec.
  injection Hrun as -> <- <-. eapply IH, Hrec.
Qed.

(** Case analysis of a membership in a trace built from conses. *)
Ltac elem_cases Hin :=
  cbn [app] in Hin;
  rewrite ?elem_of_cons, ?elem_of_nil in Hin;
  intuition (try discriminate).

(** The read that fails is the last thing the loop does. When it is in
    the trace, every packet was read, every packet of a selected stream
    went to the handler, which never failed, and the loop was left by
    [break] with the read error recorded unless it is [io.EOF]. *)
Lemma Decode_loop_end_of_reads reads :
  forall t result h ex tr h' e,
    Decode_loop fn ctx dm reads fin t result h = (ex, tr, h') ->
    EvRead (inr e) ∈ tr ->
    e = fin /\
    ex = ExitBreak (if is_io_EOF fin then result
                    else multierror.Append result (Some (Plain fin))) /\
    count_events is_handler tr = length (List.filter (selected dm) reads) /\
    count_events is_read tr = S (length reads) /\
    (forall q r, EvHandler q r ∈ tr -> r = None).
Proof.
  induction reads as [|p rest IH]; intros t result h ex tr h' e Hrun Hin;
    rewrite Decode_loop_eq in Hrun; destruct (ctx_Err ctx t);
    try (injection Hrun as <- <- <-; now elem_cases Hin).
  - injection Hrun as <- <- <-.
    apply list_elem_of_singleton in Hin. injection Hin as ->.
    repeat split. intros q r Hq. now elem_cases Hq.
  - destruct (decodemap_Decode fn dm h p) as [[h1 r] evs] eqn:Hd.
    apply decodemap_Decode_events in Hd.
    destruct r as [e'|].
    + injection Hrun as <- <- <-.
      destruct Hd as [[_ ->] | (_ & -> & _)]; now elem_cases Hin.
    + destruct (Decode_loop fn ctx dm rest fin (S t) result h1)
        as [[ex2 tr2] h2] eqn:Hrec.
      injection Hrun as <- <- <-.
      assert (Hin2 : EvRead (inr e) ∈ tr2).
      { destruct Hd as [[_ ->] | (_ & -> & _)]; now elem_cases Hin. }
      destruct (IH _ _ _ _ _ _ _ Hrec Hin2) as (-> & -> & Hh & Hr & Hnil).
      split; [reflexivity |]. split; [reflexivity |].
      rewrite !count_events_cons, !count_events_app, !count_events_cons, Hh, Hr.
      cbn [List.filter is_handler is_read].
      destruct Hd as [[-> ->] | (-> & -> & _)]; cbn.
      * repeat split; try lia. intros q r Hq.
        rewrite !elem_of_cons in Hq.
        destruct Hq as [Hq | [Hq | [Hq | Hq]]]; try discriminate.
        -- now injection Hq as -> ->.
        -- eapply Hnil, Hq.
      * repeat split; try lia. intros q r Hq.
        rewrite !elem_of_cons in Hq.
        destruct Hq as [Hq | [Hq | Hq]]; try discriminate.
        eapply Hnil, Hq.
Qed.

(** A failing handler call is the last thing the loop does: the trace
    ends with the read of that packet and the call, and the loop is left
    by [break] with the handler's error recorded. *)
Lemma Decode_loop_handler_error reads :
  forall t result h ex tr h' p e,
    Decode_loop fn ctx dm reads fin t result h = (ex, tr, h') ->
    EvHandler p (Some e) ∈ tr ->
    exists pre,
      tr = pre ++ [EvRead (inl p); EvHandler p (Some e)] /\
      ex = ExitBreak (multierror.Append result (Some e)) /\
      (forall q r, EvHandler q r ∈ pre -> r = None).
Proof.
  induction reads as [|p0 rest IH]; intros t result h ex tr h' p e Hrun Hin;
    rewrite Decode_loop_eq in Hrun; destruct (ctx_Err ctx t);
    try (injection Hrun as <- <- <-; now elem_cases Hin).
  destruct (decodemap_Decode fn dm h p0) as [[h1 r] evs] eqn:Hd.
  apply decodemap_Decode_events in Hd.
  destruct r as [e'|].
  - injection Hrun as <- <- <-.
    destruct Hd as [[_ ->] | (_ & _ & Hr & _)]; [| discriminate].
    rewrite !elem_of_cons in Hin.
    destruct Hin as [Hin | [Hin | Hin]]; try discriminate;
      [| now apply elem_of_nil in Hin].
    injection Hin as -> ->.
    exists []. repeat split. intros q r Hq. now apply elem_of_nil in Hq.
  - destruct (Decode_loop fn ctx dm rest fin (S t) result h1)
      as [[ex2 tr2] h2] eqn:Hrec.
    injection Hrun as <- <- <-.
    assert (Hin2 : EvHandler p (Some e) ∈ tr2).
    { destruct Hd as [[_ ->] | (_ & -> & _)]; now elem_cases Hin. }
    destruct (IH _ _ _ _ _ _ _ _ Hrec Hin2) as (pre & -> & -> & Hnil).
    exists (EvRead (inl p0) :: evs ++ EvRelease :: pre).
    split; [now rewrite <- !app_comm_cons, <- app_assoc |].
    split; [reflexivity |].
    intros q r Hq.
    destruct Hd as [[_ ->] | (_ & -> & _)].
    + cbn [app] in Hq. rewrite !elem_of_cons in Hq.
      destruct Hq as [Hq | [Hq | [Hq | Hq]]]; try discriminate.
      * now injection Hq as -> ->.
      * eapply Hnil, Hq.
    + cbn [app] in Hq. rewrite !elem_of_cons in Hq.
      destruct Hq as [Hq | [Hq | Hq]]; try discriminate.
      eapply Hnil, Hq.
Qed.

End DecodeLoopProperties.

Section DecodeClaims.

Context {St : Type}.
Variable fn : St -> packet -> St * error.
Variable decodemap_Close : decodemap -> error.

Lemma session_of_decodemap media_map dm i :
  session_of media_map = Some (dm, i) -> media_map = decodemap_ptr dm.
Proof.
  unfold session_of. destruct media_map as [dm' | ?]; [| discriminate].
  destruct (dm_input dm') as [|[i'|]|]; try discriminate.
  destruct (dm_packet dm'); [| discriminate].
  now intros [= -> _].
Qed.

(** Left by [break], for whatever reason, the map is closed exactly once,
    after everything else, and a failure of that close is added to the
    errors recorded so far. *)
Lemma Decode_break_closes_once ctx media_map h dm i result tr h1 :
  session_of media_map = Some (dm, i) ->
  Decode_loop fn ctx dm (packets (in_container i)) (read_end (in_container i))
    0 None h = (ExitBreak result, tr, h1) ->
  Decode fn decodemap_Close ctx media_map h
  = (Returns (record_error result (decodemap_Close dm)),
     tr ++ [EvClose (decodemap_Close dm)], h1) /\
  count_events is_close (tr ++ [EvClose (decodemap_Close dm)]) = 1%nat /\
  multierror.flatten (record_error result (decodemap_Close dm))
  = multierror.flatten result ++ multierror.flatten (decodemap_Close dm).
Proof.
  intros Hs Hloop. rewrite (Decode_session _ _ _ _ _ _ _ Hs), Hloop.
  split; [reflexivity |]. split.
  - rewrite count_events_app, (Decode_loop_no_close _ _ _ _ _ _ _ _ _ _ _ Hloop).
    reflexivity.
  - unfold record_error. destruct (decodemap_Close dm) as [c|]; [reflexivity |].
    cbn. now rewrite app_nil_r.
Qed.

(** C1, on the code. When the loop is left through the cancellation
    branch, [Decode] returns the context's error from inside the loop:
    the map is not closed at all. *)
Theorem Decode_cancelled_never_closes ctx media_map h dm i e tr h1 :
  session_of media_map = Some (dm, i) ->
  Decode_loop fn ctx dm (packets (in_container i)) (read_end (in_container i))
    0 None h = (ExitReturn e, tr, h1) ->
  Decode fn decodemap_Close ctx media_map h = (Returns e, tr, h1) /\
  count_events is_close tr = 0%nat /\
  (exists k, ctx_Err ctx k = e /\ e <> None).
Proof.
  intros Hs Hloop. rewrite (Decode_session _ _ _ _ _ _ _ Hs), Hloop.
  split; [reflexivity |]. split.
  - exact (Decode_loop_no_close _ _ _ _ _ _ _ _ _ _ _ Hloop).
  - exact (Decode_loop_return _ _ _ _ _ _ _ _ _ _ _ Hloop).
Qed.

(** A context that is not done at an iteration was not done before it. *)
Lemma ctx_Err_earlier (ctx : Context) (t t' : nat) :
  ctx_Err ctx t = None -> (t' <= t)%nat -> ctx_Err ctx t' = None.
Proof.
  unfold ctx_Err. destruct (done_from ctx) as [k|]; [| reflexivity].
  destruct (Nat.leb_spec k t); [discriminate |]. intros _ Hle.
  destruct (Nat.leb_spec k t'); [lia | reflexivity].
Qed.

(** Over packets on which the handler never fails, with a context that is
    not done, the loop reads, dispatches and releases each packet in turn
    and goes on with the packets that follow. *)
Lemma Decode_loop_quiet ctx dm fin (pre : list packet) :
  forall reads t result h h1,
    handle_all fn dm pre h = Some h1 ->
    (forall j, (j < length pre)%nat -> ctx_Err ctx (t + j) = None) ->
    Decode_loop fn ctx dm (pre ++ reads) fin t result h
    = let '(ex, tr, h2) := Decode_loop fn ctx dm reads fin (t + length pre) result h1 in
      (ex, quiet_trace dm pre ++ tr, h2).
Proof.
  induction pre as [|p pre IH]; intros reads t result h h1 Hall Hctx.
  - injection Hall as ->. cbn [app length quiet_trace map concat].
    rewrite Nat.add_0_r. now destruct (Decode_loop fn ctx dm reads fin t result h1) as [[? ?] ?].
  - cbn [app]. rewrite Decode_loop_eq.
    pose proof (Hctx 0%nat ltac:(cbn; lia)) as H0. rewrite Nat.add_0_r in H0. rewrite H0.
    assert (Hrest : forall j, (j < length pre)%nat -> ctx_Err ctx (S t + j) = None).
    { intros j Hj. replace (S t + j)%nat with (t + S j)%nat by lia.
      apply Hctx. cbn. lia. }
    cbn [handle_all] in Hall. unfold decodemap_Decode, quiet_trace, quiet_step.
    cbn [map concat length]. replace (t + S (length pre))%nat with (S t + length pre)%nat by lia.
    destruct (selected dm p).
    + destruct (fn h p) as [h0 r]. destruct r as [e|]; [discriminate |].
      rewrite (IH reads (S t) result h0 h1 Hall Hrest).
      destruct (Decode_loop fn ctx dm reads fin (S t + length pre) result h1) as [[ex tr] h2].
      reflexivity.
    + rewrite (IH reads (S t) result h h1 Hall Hrest).
      destruct (Decode_loop fn ctx dm reads fin (S t + length pre) result h1) as [[ex tr] h2].
      reflexivity.
Qed.

Lemma quiet_trace_handler_count dm (pre : list packet) :
  count_events is_handler (quiet_trace dm pre)
  = length (List.filter (selected dm) pre).
Proof.
  induction pre as [|p pre IH]; [reflexivity |].
  unfold quiet_trace in *. cbn [map concat List.filter].
  rewrite count_events_app, IH. unfold quiet_step.
  destruct (selected dm p); reflexivity.
Qed.

(** C5. On a map that passes the parameter checks, with a context that is
    already cancelled, [Decode] returns the context's error at once: it
    reads nothing from the container and never calls the handler. *)
Theorem Decode_already_cancelled ctx media_map h dm i :
  session_of media_map = Some (dm, i) ->
  done_from ctx = Some 0%nat ->
  Decode fn decodemap_Close ctx media_map h
  = (Returns (Some (Plain (reason ctx))), [], h).
Proof.
  intros Hs Hdone.
  assert (Hc : ctx_Err ctx 0 = Some (Plain (reason ctx)))
    by (unfold ctx_Err; now rewrite Hdone).
  rewrite (Decode_session _ _ _ _ _ _ _ Hs).
  rewrite Decode_loop_cancelled by (rewrite Hc; discriminate).
  now rewrite Hc.
Qed.

(** C6. When the handler returns nil on every packet it is given and the
    context is not done before the container is exhausted, reaching the
    end of the stream ends the session normally: every packet was read and
    released, the handler was called exactly once for each packet of a
    selected stream, and the end-of-stream signal adds nothing to the
    result, which holds the failure of closing the map alone: [Decode]
    returns nil when that close succeeds. *)
Theorem Decode_end_of_stream ctx media_map h dm i h1 :
  session_of media_map = Some (dm, i) ->
  read_end (in_container i) = io_EOF ->
  ctx_Err ctx (length (packets (in_container i))) = None ->
  handle_all fn dm (packets (in_container i)) h = Some h1 ->
  Decode fn decodemap_Close ctx media_map h
  = (Returns (aggregate_of [decodemap_Close dm]),
     quiet_trace dm (packets (in_container i))
     ++ [EvRead (inr io_EOF); EvClose (decodemap_Close dm)],
     h1) /\
  count_events is_handler
    (quiet_trace dm (packets (in_container i))
     ++ [EvRead (inr io_EOF); EvClose (decodemap_Close dm)])
  = length (List.filter (selected dm) (packets (in_container i))) /\
  (decodemap_Close dm = None -> aggregate_of [decodemap_Close dm] = None).
Proof.
  intros Hs Hend Hctx Hall. split; [| split].
  - rewrite (Decode_session _ _ _ _ _ _ _ Hs), Hend.
    rewrite <- (app_nil_r (packets (in_container i))) at 1.
    rewrite (Decode_loop_quiet ctx dm io_EOF _ [] 0 None h h1 Hall)
      by (intros j Hj; apply (ctx_Err_earlier ctx _ _ Hctx); lia).
    rewrite Decode_loop_eq. cbn [Nat.add]. rewrite Hctx. cbn [is_io_EOF].
    change None with (aggregate_of []) at 1. rewrite record_error_aggregate.
    cbn [app]. now rewrite <- app_assoc.
  - rewrite count_events_app, quiet_trace_handler_count. cbn. lia.
  - intros ->. reflexivity.
Qed.

(** C7. When the handler, having returned nil on the packets before,
    returns a non-nil error for a packet, the session ends there: that
    packet is not released, the packets after it are neither read nor
    dispatched, the handler is not called again, the map is closed, and
    [Decode] returns the aggregate that holds the errors of the handler's
    result, followed by those of a failed close. *)
Theorem Decode_handler_error_is_terminal ctx media_map h dm i
    (pre rest : list packet) (p : packet) (h1 h2 : St) (e : goerr) :
  session_of media_map = Some (dm, i) ->
  packets (in_container i) = pre ++ p :: rest ->
  ctx_Err ctx (length pre) = None ->
  handle_all fn dm pre h = Some h1 ->
  selected dm p = true ->
  fn h1 p = (h2, Some e) ->
  Decode fn decodemap_Close ctx media_map h
  = (Returns (aggregate_of [Some e; decodemap_Close dm]),
     quiet_trace dm pre
     ++ [EvRead (inl p); EvHandler p (Some e); EvClose (decodemap_Close dm)],
     h2).
Proof.
  intros Hs Hpk Hctx Hall Hsel Hcall.
  rewrite (Decode_session _ _ _ _ _ _ _ Hs), Hpk.
  rewrite (Decode_loop_quiet ctx dm _ pre (p :: rest) 0 None h h1 Hall)
    by (intros j Hj; apply (ctx_Err_earlier ctx _ _ Hctx); lia).
  rewrite Decode_loop_eq. cbn [Nat.add]. rewrite Hctx.
  unfold decodemap_Decode. rewrite Hsel, Hcall.
  change (multierror.Append None (Some e)) with (record_error (aggregate_of []) (Some e)).
  rewrite !record_error_aggregate. cbn [app]. now rewrite <- app_assoc.
Qed.

End DecodeClaims.

(** ** Manager.Map with the NONE selector *)








(** ** Sessions on a sample media *)

Example Map_sample :
  manager_Map New (input_ptr (Some sample_input)) MEDIA_FLAG_NONE = inl sample_dm
  /\ dm_streams sample_dm = [video0; audio1; subtitle2].
Proof. split; reflexivity. Qed.

Example Map_sample_audio :
  select_streams MEDIA_FLAG_AUDIO ∅ (in_streams sample_input) = [audio1].
Proof. reflexivity. Qed.

(** A stream flagged as video and audio is of kind video: after a video
    stream it is not selected, and a later audio stream represents audio. *)
Example Map_two_flags :
  select_streams MEDIA_FLAG_NONE ∅ [video0; video_audio1; subtitle2]
  = [video0; subtitle2] /\
  select_streams MEDIA_FLAG_NONE ∅
    [video0; video_audio1; {| Index := 2; Flags := MEDIA_FLAG_AUDIO |}]
  = [video0; {| Index := 2; Flags := MEDIA_FLAG_AUDIO |}].
Proof. split; reflexivity. Qed.

Lemma Decode_cancelled_never_closes_witness :
  Decode count_calls close_ok (cancelled_from 1) (decodemap_ptr sample_dm) 0%nat
  = (Returns (Some (Plain context_Canceled)),
     [EvRead (inl (pk 0 0)); EvHandler (pk 0 0) None; EvRelease], 1%nat) /\
  count_events is_close
    [EvRead (inl (pk 0 0)); EvHandler (pk 0 0) None; EvRelease] = 0%nat /\
  (exists k, ctx_Err (cancelled_from 1) k = Some (Plain context_Canceled) /\
             Some (Plain context_Canceled) <> None).
Proof.
  apply (Decode_cancelled_never_closes count_calls close_ok (cancelled_from 1)
           (decodemap_ptr sample_dm) 0%nat sample_dm sample_input);
    reflexivity.
Defined.

Lemma Decode_already_cancelled_witness :
  Decode count_calls close_ok (cancelled_from 0) (decodemap_ptr sample_dm) 0%nat
  = (Returns (Some (Plain context_Canceled)), [], 0%nat).
Proof.
  apply (Decode_already_cancelled count_calls close_ok (cancelled_from 0)
           (decodemap_ptr sample_dm) 0%nat sample_dm sample_input); reflexivity.
Defined.

Lemma Decode_end_of_stream_witness :
  (Decode count_calls close_ok background (decodemap_ptr sample_dm) 0%nat
   = (Returns (aggregate_of [close_ok sample_dm]),
      quiet_trace sample_dm (packets (in_container sample_input))
      ++ [EvRead (inr io_EOF); EvClose (close_ok sample_dm)],
      3%nat) /\
   count_events is_handler
     (quiet_trace sample_dm (packets (in_container sample_input))
      ++ [EvRead (inr io_EOF); EvClose (close_ok sample_dm)])
   = length (List.filter (selected sample_dm) (packets (in_container sample_input))) /\
   (close_ok sample_dm = None -> aggregate_of [close_ok sample_dm] = None)) /\
  Decode count_calls close_ok background (decodemap_ptr sample_dm) 0%nat
  = (Returns None,
     [EvRead (inl (pk 0 0)); EvHandler (pk 0 0) None; EvRelease;
      EvRead (inl (pk 1 100)); EvHandler (pk 1 100) None; EvRelease;
      EvRead (inl (pk 2 200)); EvHandler (pk 2 200) None; EvRelease;
      EvRead (inl (pk 3 300)); EvRelease;
      EvRead (inr io_EOF); EvClose None],
     3%nat).
Proof.
  split; [| reflexivity].
  apply (Decode_end_of_stream count_calls close_ok background
           (decodemap_ptr sample_dm) 0%nat sample_dm sample_input 3%nat);
    reflexivity.
Defined.

(** The same session when closing the map fails: the result holds that
    failure and nothing from the end of the stream. *)
Example Decode_end_of_stream_close_fails :
  (Decode count_calls close_fails background (decodemap_ptr sample_dm) 0%nat).1.1
  = Returns (Some (Aggregate [ErrExternal "close"])).
Proof. reflexivity. Qed.

Lemma Decode_handler_error_is_terminal_witness :
  (Decode (fail_at 1) close_fails background (decodemap_ptr sample_dm) 0%nat
   = (Returns (aggregate_of [Some (Plain (ErrExternal "handler")); close_fails sample_dm]),
      quiet_trace sample_dm [pk 0 0]
      ++ [EvRead (inl (pk 1 100));
          EvHandler (pk 1 100) (Some (Plain (ErrExternal "handler")));
          EvClose (close_fails sample_dm)],
      2%nat)) /\
  Decode (fail_at 1) close_fails background (decodemap_ptr sample_dm) 0%nat
  = (Returns (Some (Aggregate [ErrExternal "handler"; ErrExternal "close"])),
     [EvRead (inl (pk 0 0)); EvHandler (pk 0 0) None; EvRelease;
      EvRead (inl (pk 1 100));
      EvHandler (pk 1 100) (Some (Plain (ErrExternal "handler")));
      EvClose (Some (Plain (ErrExternal "close")))],
     2%nat).
Proof.
  split; [| reflexivity].
  apply (Decode_handler_error_is_terminal (fail_at 1) close_fails background
           (decodemap_ptr sample_dm) 0%nat sample_dm sample_input
           [pk 0 0] [pk 2 200; pk 3 300] (pk 1 100) 1%nat 2%nat
           (Plain (ErrExternal "handler")));
    reflexivity.
Defined.

Example Decode_handler_error_run :
  Decode (fail_at 1) close_fails background (decodemap_ptr sample_dm) 0%nat
  = (Returns (Some (Aggregate [ErrExternal "handler"; ErrExternal "close"])),
     [EvRead (inl (pk 0 0)); EvHandler (pk 0 0) None; EvRelease;
      EvRead (inl (pk 1 100));
      EvHandler (pk 1 100) (Some (Plain (ErrExternal "handler")));
      EvClose (Some (Plain (ErrExternal "close")))],
     2%nat).
Proof. reflexivity. Qed.

(** ** Audio conversion: the callback's contract *)

Section ConvertProperties.

Context {St : Type}.
Variable fn : St -> AudioFrame -> St * error.


Variable resample : AudioFrame -> AudioFormat -> list AudioFrame.


End ConvertProperties.


(** A callback that fails on its second buffer: the third is not delivered. *)
Example Convert_stops_at_failure :
  Convert (fun n _ => (S n, if (n =? 1)%nat then Some (Plain (ErrExternal "callback")) else None))
    (fun inp target => one_buffer inp target ++ one_buffer inp target ++ one_buffer inp target)
    test_input test_target 0%nat
  = (Some (Plain (ErrExternal "callback")),
     [(hd test_input (one_buffer test_input test_target), None);
      (hd test_input (one_buffer test_input test_target),
       Some (Plain (ErrExternal "callback")))],
     2%nat).
Proof. reflexivity. Qed.

(** With no buffer to deliver the callback is not called, and [Convert]
    returns nil whatever the callback would answer. *)
Example Convert_no_buffer :
  Convert answer_EOF no_buffer test_input test_target 0%nat = (None, [], 0%nat).
Proof. reflexivity. Qed.

(** * Further properties of the code *)

(** ** The [String] switches as tables *)

Lemma FlagString_table (f : MediaFlag) :
  MediaFlag.FlagString f = switch_table flag_cases invalid_flag_marker f.
Proof. reflexivity. Qed.

Lemma SampleFormat_String_table (v : SampleFormat) :
  SampleFormat_String v = switch_table sample_format_cases invalid_sample_format v.
Proof. reflexivity. Qed.

Lemma ChannelLayout_String_table (v : ChannelLayout) :
  ChannelLayout_String v = switch_table channel_layout_cases invalid_channel_layout v.
Proof. reflexivity. Qed.

(** A value among the cases gets the result of a case with that value. *)
Lemma switch_table_hit (table : list (N * string)) (d : string) (k : N) :
  k ∈ table.*1 -> (k, switch_table table d k) ∈ table.
Proof.
  induction table as [|[c s] table IH]; intros Hk; [now apply elem_of_nil in Hk |].
  cbn [switch_table]. destruct (N.eqb_spec k c) as [-> | Hne]; [now left |].
  right. apply IH. cbn in Hk. apply elem_of_cons in Hk as [Hk | Hk]; [contradiction | exact Hk].
Qed.

(** A value among none of the cases gets the default. *)
Lemma switch_table_miss (table : list (N * string)) (d : string) (k : N) :
  k ∉ table.*1 -> switch_table table d k = d.
Proof.
  induction table as [|[c s] table IH]; intros Hk; [reflexivity |].
  cbn [switch_table]. cbn in Hk. rewrite not_elem_of_cons in Hk. destruct Hk as [Hne Hk].
  destruct (N.eqb_spec k c) as [-> | _]; [contradiction | now apply IH].
Qed.

Lemma switch_table_default_iff (table : list (N * string)) (d : string) (k : N) :
  d ∉ table.*2 -> (switch_table table d k = d <-> k ∉ table.*1).
Proof.
  intros Hd. split; [| apply switch_table_miss].
  intros Heq Hk. apply switch_table_hit with (d := d) in Hk. rewrite Heq in Hk.
  apply Hd, list_elem_of_fmap. now exists (k, d).
Qed.

Lemma switch_table_inj (table : list (N * string)) (d : string) (k1 k2 : N) :
  NoDup table.*2 -> k1 ∈ table.*1 -> k2 ∈ table.*1 ->
  switch_table table d k1 = switch_table table d k2 -> k1 = k2.
Proof.
  intros Hnd H1 H2 Heq.
  apply switch_table_hit with (d := d) in H1, H2. rewrite <- Heq in H2.
  set (s := switch_table table d k1) in *. clearbody s. clear Heq.
  induction table as [|[c t] table IH]; [now apply elem_of_nil in H1 |].
  cbn in Hnd. apply NoDup_cons in Hnd as [Hnotin Hnd].
  apply elem_of_cons in H1 as [E1 | H1]; apply elem_of_cons in H2 as [E2 | H2].
  - congruence.
  - exfalso. injection E1 as _ ->. apply Hnotin, list_elem_of_fmap. now exists (k2, t).
  - exfalso. injection E2 as _ ->. apply Hnotin, list_elem_of_fmap. now exists (k1, t).
  - now apply IH.
Qed.

Lemma flag_cases_keys : flag_cases.*1 = MEDIA_FLAG_NONE :: named_flags.
Proof. reflexivity. Qed.

Lemma flag_cases_names_NoDup : NoDup flag_cases.*2.
Proof. apply (bool_decide_unpack _). vm_compute. exact I. Qed.

Lemma sample_format_names_NoDup : NoDup sample_format_cases.*2.
Proof. apply (bool_decide_unpack _). vm_compute. exact I. Qed.

Lemma channel_layout_names_NoDup : NoDup channel_layout_cases.*2.
Proof. apply (bool_decide_unpack _). vm_compute. exact I. Qed.

Lemma enum_keys_below (n : nat) (v : N) :
  v ∈ map N.of_nat (seq 0 n) <-> v < N.of_nat n.
Proof.
  rewrite list_elem_of_In, in_map_iff. split.
  - intros (k & <- & Hk). apply in_seq in Hk. lia.
  - intros Hv. exists (N.to_nat v). split; [apply N2Nat.id | apply in_seq; lia].
Qed.

Lemma sample_format_keys (v : N) :
  v ∈ sample_format_cases.*1 <-> v <= SAMPLE_FORMAT_S64P.
Proof.
  change (sample_format_cases.*1) with (map N.of_nat (seq 0 13)).
  rewrite enum_keys_below. unfold SAMPLE_FORMAT_S64P. lia.
Qed.

Lemma channel_layout_keys (v : N) :
  v ∈ channel_layout_cases.*1 <-> v <= CHANNEL_LAYOUT_AMBISONIC_FIRST_ORDER.
Proof.
  change (channel_layout_cases.*1) with (map N.of_nat (seq 0 31)).
  rewrite enum_keys_below. unfold CHANNEL_LAYOUT_AMBISONIC_FIRST_ORDER. lia.
Qed.

(** X1. [FlagString] answers the invalid marker exactly for the values that
    are neither zero nor one single named flag; a combination of flags has
    no name of its own. *)
Theorem FlagString_invalid_iff (f : MediaFlag) :
  MediaFlag.FlagString f = invalid_flag_marker
  <-> f <> MEDIA_FLAG_NONE /\ f ∉ named_flags.
Proof.
  rewrite FlagString_table, switch_table_default_iff, flag_cases_keys, not_elem_of_cons.
  - reflexivity.
  - apply (bool_decide_unpack _). vm_compute. exact I.
Qed.

Lemma FlagString_injective_on_named (f g : MediaFlag) :
  f ∈ named_flags -> g ∈ named_flags ->
  MediaFlag.FlagString f = MediaFlag.FlagString g -> f = g.
Proof.
  intros Hf Hg. rewrite !FlagString_table.
  apply switch_table_inj; [apply flag_cases_names_NoDup | |];
    rewrite flag_cases_keys; now right.
Qed.

(** X2. Zero and the named flags have pairwise different names: the name
    [FlagString] gives determines the flag. *)
Theorem FlagString_injective (f g : MediaFlag) :
  f ∈ MEDIA_FLAG_NONE :: named_flags -> g ∈ MEDIA_FLAG_NONE :: named_flags ->
  MediaFlag.FlagString f = MediaFlag.FlagString g -> f = g.
Proof.
  rewrite <- flag_cases_keys, !FlagString_table.
  apply switch_table_inj, flag_cases_names_NoDup.
Qed.

Lemma FlagString_injective_witness :
  MEDIA_FLAG_AUDIO = MEDIA_FLAG_AUDIO.
Proof.
  apply (FlagString_injective MEDIA_FLAG_AUDIO MEDIA_FLAG_AUDIO).
  - apply list_elem_of_In. vm_compute. tauto.
  - apply list_elem_of_In. vm_compute. tauto.
  - reflexivity.
Defined.

(** X3. [SampleFormat.String] answers the invalid marker exactly for the
    values above the last declared format. *)
Theorem SampleFormat_String_invalid_iff (v : SampleFormat) :
  SampleFormat_String v = invalid_sample_format <-> SAMPLE_FORMAT_S64P < v.
Proof.
  rewrite SampleFormat_String_table, switch_table_default_iff, sample_format_keys.
  - lia.
  - apply (bool_decide_unpack _). vm_compute. exact I.
Qed.

(** X4. Declared sample formats have pairwise different names. *)
Theorem SampleFormat_String_injective (v w : SampleFormat) :
  v <= SAMPLE_FORMAT_S64P -> w <= SAMPLE_FORMAT_S64P ->
  SampleFormat_String v = SampleFormat_String w -> v = w.
Proof.
  rewrite <- !sample_format_keys, !SampleFormat_String_table.
  apply switch_table_inj, sample_format_names_NoDup.
Qed.

Lemma SampleFormat_String_injective_witness :
  SAMPLE_FORMAT_FLTP = SAMPLE_FORMAT_FLTP.
Proof.
  apply (SampleFormat_String_injective SAMPLE_FORMAT_FLTP SAMPLE_FORMAT_FLTP).
  - vm_compute. discriminate.
  - vm_compute. discriminate.
  - reflexivity.
Defined.

(** X5. [ChannelLayout.String] answers the invalid marker exactly for the
    values above the last declared layout. *)
Theorem ChannelLayout_String_invalid_iff (v : ChannelLayout) :
  ChannelLayout_String v = invalid_channel_layout
  <-> CHANNEL_LAYOUT_AMBISONIC_FIRST_ORDER < v.
Proof.
  rewrite ChannelLayout_String_table, switch_table_default_iff, channel_layout_keys.
  - lia.
  - apply (bool_decide_unpack _). vm_compute. exact I.
Qed.

(** X6. Declared channel layouts have pairwise different names. *)
Theorem ChannelLayout_String_injective (v w : ChannelLayout) :
  v <= CHANNEL_LAYOUT_AMBISONIC_FIRST_ORDER ->
  w <= CHANNEL_LAYOUT_AMBISONIC_FIRST_ORDER ->
  ChannelLayout_String v = ChannelLayout_String w -> v = w.
Proof.
  rewrite <- !channel_layout_keys, !ChannelLayout_String_table.
  apply switch_table_inj, channel_layout_names_NoDup.
Qed.

Lemma ChannelLayout_String_injective_witness :
  CHANNEL_LAYOUT_QUAD = CHANNEL_LAYOUT_QUAD.
Proof.
  apply (ChannelLayout_String_injective CHANNEL_LAYOUT_QUAD CHANNEL_LAYOUT_QUAD).
  - vm_compute. discriminate.
  - vm_compute. discriminate.
  - reflexivity.
Defined.

(** ** [Is] as inclusion of bits *)

Lemma Is_true_iff_land (f v : MediaFlag) :
  MediaFlag.Is f v = true <-> N.land f v = v.
Proof. unfold MediaFlag.Is. apply N.eqb_eq. Qed.

(** X7. [f.Is(v)] holds exactly when every bit of [v] is a bit of [f]. *)
Theorem Is_iff_bits_included (f v : MediaFlag) :
  MediaFlag.Is f v = true
  <-> forall i, N.testbit v i = true -> N.testbit f i = true.
Proof.
  rewrite Is_true_iff_land. split.
  - intros Hland i Hi. rewrite <- Hland, N.land_spec in Hi.
    now apply andb_true_iff in Hi as [Hf _].
  - intros Hincl. apply N.bits_inj. intros i. rewrite N.land_spec.
    destruct (N.testbit v i) eqn:Hv; [| apply andb_false_r].
    now rewrite (Hincl i Hv).
Qed.

(** X8. [Is] orders the flag values: every value includes itself, inclusion
    is transitive, and two values that include each other are equal. *)
Theorem Is_partial_order (f g h : MediaFlag) :
  MediaFlag.Is f f = true /\
  (MediaFlag.Is f g = true -> MediaFlag.Is g h = true -> MediaFlag.Is f h = true) /\
  (MediaFlag.Is f g = true -> MediaFlag.Is g f = true -> f = g).
Proof.
  split; [apply Is_true_iff_land, N.land_diag |]. split.
  - rewrite !Is_true_iff_land. intros Hfg Hgh.
    now rewrite <- Hgh, N.land_assoc, Hfg.
  - rewrite !Is_true_iff_land. intros Hfg Hgf. rewrite N.land_comm in Hgf. congruence.
Qed.

Lemma Is_partial_order_witness :
  MediaFlag.Is 7 7 = true /\
  (MediaFlag.Is 7 3 = true -> MediaFlag.Is 3 1 = true -> MediaFlag.Is 7 1 = true) /\
  (MediaFlag.Is 7 3 = true -> MediaFlag.Is 3 7 = true -> (7 : MediaFlag) = 3).
Proof. apply (Is_partial_order 7 3 1). Defined.

(** X9. Testing for [MEDIA_FLAG_NONE] succeeds on every value, so it does not
    tell an empty set of flags from a non-empty one; and the empty set
    includes nothing but itself. *)
Theorem Is_NONE (f : MediaFlag) :
  MediaFlag.Is f MEDIA_FLAG_NONE = true /\
  (MediaFlag.Is MEDIA_FLAG_NONE f = true <-> f = MEDIA_FLAG_NONE).
Proof.
  split; [apply Is_true_iff_land, N.land_0_r |].
  rewrite Is_true_iff_land. unfold MEDIA_FLAG_NONE. rewrite N.land_0_l.
  split; congruence.
Qed.

(** X10. Testing for a combination of flags is testing for each of them. *)
Theorem Is_lor_tested (f v w : MediaFlag) :
  MediaFlag.Is f (N.lor v w) = MediaFlag.Is f v && MediaFlag.Is f w.
Proof.
  apply eq_true_iff_eq. rewrite andb_true_iff, !Is_true_iff_land. split.
  - intros Hvw. split; apply N.bits_inj; intros i;
      apply (f_equal (fun x => N.testbit x i)) in Hvw;
      rewrite N.land_spec, N.lor_spec in Hvw; rewrite N.land_spec;
      destruct (N.testbit f i), (N.testbit v i), (N.testbit w i);
      cbn in *; congruence.
  - intros [Hv Hw]. now rewrite N.land_lor_distr_r, Hv, Hw.
Qed.

(** X11. A named flag is in the OR of two values exactly when it is in one
    of them. *)
Theorem Is_lor_named (f g v : MediaFlag) :
  v ∈ named_flags ->
  MediaFlag.Is (N.lor f g) v = MediaFlag.Is f v || MediaFlag.Is g v.
Proof.
  intros Hv. apply named_flag_inv in Hv as (k & _ & ->).
  rewrite !Is_pow2_testbit. apply N.lor_spec.
Qed.

Lemma Is_lor_named_witness :
  MediaFlag.Is (N.lor MEDIA_FLAG_FILE MEDIA_FLAG_VIDEO) MEDIA_FLAG_VIDEO
  = MediaFlag.Is MEDIA_FLAG_FILE MEDIA_FLAG_VIDEO
    || MediaFlag.Is MEDIA_FLAG_VIDEO MEDIA_FLAG_VIDEO.
Proof.
  apply (Is_lor_named MEDIA_FLAG_FILE MEDIA_FLAG_VIDEO MEDIA_FLAG_VIDEO).
  apply list_elem_of_In. vm_compute. tauto.
Defined.

(** A combination of flags can be in an OR without being in either side. *)
Example Is_lor_combination :
  MediaFlag.Is (N.lor MEDIA_FLAG_AUDIO MEDIA_FLAG_VIDEO)
    (N.lor MEDIA_FLAG_AUDIO MEDIA_FLAG_VIDEO) = true /\
  MediaFlag.Is MEDIA_FLAG_AUDIO (N.lor MEDIA_FLAG_AUDIO MEDIA_FLAG_VIDEO) = false /\
  MediaFlag.Is MEDIA_FLAG_VIDEO (N.lor MEDIA_FLAG_AUDIO MEDIA_FLAG_VIDEO) = false.
Proof. repeat split. Qed.

(** ** [String]: what it returns and when it panics *)

(** With a named bit set, [String] returns the joined names. *)
Lemma String_with_named_bit (f : MediaFlag) :
  N.land f named_mask <> 0 -> MediaFlag.String f = Returns (render_names f).
Proof.
  intros Hmask.
  assert (Hf : (f =? MEDIA_FLAG_NONE) = false).
  { apply N.eqb_neq. intros ->. apply Hmask. reflexivity. }
  unfold MediaFlag.String. rewrite Hf, String_loop_all, String_fold_filter.
  rewrite fold_right_names. unfold render_names, set_names.
  destruct (named_bit_of_mask f Hmask) as (k & Hk & HIs).
  assert (Hin : In (pow2_flag k) (List.filter (MediaFlag.Is f) named_flags)).
  { apply filter_In. split; [| exact HIs].
    apply list_elem_of_In, pow2_flag_named, Hk. }
  destruct (List.filter (MediaFlag.Is f) named_flags) as [|v vs]; [destruct Hin |].
  cbn [map]. rewrite join_delimited. reflexivity.
Qed.

(** Without one, the loop leaves the string empty. *)
Lemma String_without_named_bit (f : MediaFlag) :
  f <> MEDIA_FLAG_NONE -> N.land f named_mask = 0 ->
  MediaFlag.String f = Panics "slice bounds out of range".
Proof.
  intros Hf Hmask. apply N.eqb_neq in Hf.
  unfold MediaFlag.String. rewrite Hf, String_loop_all, String_fold_filter.
  rewrite filter_none; [reflexivity |].
  intros v Hv. apply list_elem_of_In, named_flag_inv in Hv as (k & Hk & ->).
  now apply no_named_bit_of_mask.
Qed.

(** The named bits of a value are those of its part under the mask. *)
Lemma Is_named_mask (f v : MediaFlag) :
  v ∈ named_flags -> MediaFlag.Is (N.land f named_mask) v = MediaFlag.Is f v.
Proof.
  intros Hv. apply named_flag_inv in Hv as (k & Hk & ->).
  rewrite !Is_pow2_testbit, N.land_spec, named_mask_ones, N.ones_spec_low by lia.
  apply andb_true_r.
Qed.

Lemma set_names_mask (f : MediaFlag) :
  set_names (N.land f named_mask) = set_names f.
Proof.
  unfold set_names. f_equal. apply filter_ext_in.
  intros v Hv. apply Is_named_mask, list_elem_of_In, Hv.
Qed.

Lemma land_mask_idem (f : MediaFlag) :
  N.land (N.land f named_mask) named_mask = N.land f named_mask.
Proof. now rewrite <- N.land_assoc, N.land_diag. Qed.

(** X12. [String] panics exactly on the non-zero values that have no named
    bit; on every other value, zero or with a named bit, it returns a
    string. *)
Theorem String_panics_iff (f : MediaFlag) :
  ((exists msg, MediaFlag.String f = Panics msg)
   <-> f <> MEDIA_FLAG_NONE /\ N.land f named_mask = 0) /\
  ((exists str, MediaFlag.String f = Returns str)
   <-> f = MEDIA_FLAG_NONE \/ N.land f named_mask <> 0).
Proof.
  destruct (N.eq_dec f MEDIA_FLAG_NONE) as [-> | Hf].
  - split; split.
    + intros [msg Hp]. discriminate.
    + intros [Hf _]. congruence.
    + intros _. now left.
    + intros _. eexists. reflexivity.
  - destruct (N.eq_dec (N.land f named_mask) 0) as [Hz | Hnz].
    + pose proof (String_without_named_bit f Hf Hz) as Hp. split; split.
      * intros _. now split.
      * intros _. eexists. exact Hp.
      * intros [str Hr]. rewrite Hp in Hr. discriminate.
      * intros [-> | Hnz]; [congruence | contradiction].
    + pose proof (String_with_named_bit f Hnz) as Hr. split; split.
      * intros [msg Hp]. rewrite Hr in Hp. discriminate.
      * intros [_ Hz]. contradiction.
      * intros _. now right.
      * intros _. eexists. exact Hr.
Qed.

(** X13. Bits above [MEDIA_FLAG_MAX] never change what [String] returns:
    a value with a named bit renders as its part under the mask of named
    flags does. *)
Theorem String_ignores_unnamed_bits (f : MediaFlag) :
  N.land f named_mask <> 0 ->
  MediaFlag.String f = MediaFlag.String (N.land f named_mask).
Proof.
  intros Hmask.
  rewrite (String_with_named_bit f Hmask).
  rewrite String_with_named_bit by (now rewrite land_mask_idem).
  unfold render_names. now rewrite set_names_mask.
Qed.

Lemma String_ignores_unnamed_bits_witness :
  MediaFlag.String (N.lor (uint_shl 1 20) MEDIA_FLAG_DATA)
  = MediaFlag.String (N.land (N.lor (uint_shl 1 20) MEDIA_FLAG_DATA) named_mask).
Proof.
  apply (String_ignores_unnamed_bits (N.lor (uint_shl 1 20) MEDIA_FLAG_DATA)).
  vm_compute. discriminate.
Defined.

(** Among consecutive flags, a single flag includes itself only. *)
Lemma filter_Is_pow2_seq (k n : nat) :
  forall a,
    List.filter (MediaFlag.Is (pow2_flag k)) (map pow2_flag (seq a n))
    = if bool_decide (a <= k < a + n)%nat then [pow2_flag k] else [].
Proof.
  induction n as [|n IH]; intros a.
  - cbn. now rewrite bool_decide_eq_false_2 by lia.
  - cbn [seq map List.filter]. rewrite IH, Is_pow2_testbit.
    unfold pow2_flag at 1. rewrite N.pow2_bits_eqb.
    destruct (N.eqb_spec (N.of_nat k) (N.of_nat a)) as [E | E].
    + apply Nat2N.inj in E. subst a.
      now rewrite bool_decide_eq_false_2, bool_decide_eq_true_2 by lia.
    + assert (k <> a) by congruence.
      destruct (bool_decide (S a <= k < S a + n)%nat) eqn:Hb.
      * apply bool_decide_eq_true in Hb. now rewrite bool_decide_eq_true_2 by lia.
      * apply bool_decide_eq_false in Hb. now rewrite bool_decide_eq_false_2 by lia.
Qed.

(** X14. On a single named flag, [String] and [FlagString] agree. *)
Theorem String_single_flag (v : MediaFlag) :
  v ∈ named_flags -> MediaFlag.String v = Returns (MediaFlag.FlagString v).
Proof.
  intros Hv. apply named_flag_inv in Hv as (k & Hk & ->).
  assert (Hfilter : List.filter (MediaFlag.Is (pow2_flag k)) named_flags = [pow2_flag k]).
  { rewrite named_flags_pow2, filter_Is_pow2_seq.
    now rewrite bool_decide_eq_true_2 by lia. }
  rewrite String_with_named_bit.
  - unfold render_names, set_names. now rewrite Hfilter.
  - intros Hz. pose proof (no_named_bit_of_mask _ k Hz Hk) as Hno.
    assert (Hin : In (pow2_flag k) (List.filter (MediaFlag.Is (pow2_flag k)) named_flags))
      by (rewrite Hfilter; now left).
    apply filter_In in Hin as [_ Hyes]. congruence.
Qed.

Lemma String_single_flag_witness :
  MediaFlag.String MEDIA_FLAG_CAPTIONS = Returns (MediaFlag.FlagString MEDIA_FLAG_CAPTIONS).
Proof.
  apply (String_single_flag MEDIA_FLAG_CAPTIONS).
  apply list_elem_of_In. vm_compute. tauto.
Defined.

(** ** [String]: the rendering determines the named bits *)

Lemma string_app_nil_l (s : string) : ("" +:+ s = s)%string.
Proof. reflexivity. Qed.

(** Two delimiter-free prefixes before a delimiter: the split is unique. *)
Lemma bar_split_unique (s1 : string) :
  forall s2 r1 r2,
    no_bar s1 = true -> no_bar s2 = true ->
    (s1 +:+ "|" +:+ r1 = s2 +:+ "|" +:+ r2)%string ->
    s1 = s2 /\ r1 = r2.
Proof.
  induction s1 as [|c s1 IH]; intros [|d s2] r1 r2 H1 H2 Heq;
    rewrite ?string_app_cons, ?string_app_nil_l in Heq.
  - injection Heq as ->. now split.
  - injection Heq as <- _. cbn in H2. discriminate.
  - injection Heq as -> _. cbn in H1. discriminate.
  - injection Heq as -> Heq. cbn in H1, H2.
    apply andb_true_iff in H1 as [_ H1]. apply andb_true_iff in H2 as [_ H2].
    destruct (IH _ _ _ H1 H2 Heq) as [-> ->]. now split.
Qed.

Lemma no_bar_not_joined (s2 : string) :
  forall s r, no_bar s = true -> (s = s2 +:+ "|" +:+ r)%string -> False.
Proof.
  induction s2 as [|d s2 IH]; intros s r Hs Heq;
    rewrite ?string_app_cons, ?string_app_nil_l in Heq; subst s; cbn in Hs.
  - discriminate.
  - apply andb_true_iff in Hs as [_ Hs]. now apply (IH _ r Hs).
Qed.

Lemma concat_bar_cons (x y : string) (l : list string) :
  String.concat "|" (x :: y :: l) = (x +:+ "|" +:+ String.concat "|" (y :: l))%string.
Proof. reflexivity. Qed.

(** Joining delimiter-free names with the delimiter loses nothing. *)
Lemma concat_bar_inj (l1 : list string) :
  forall l2,
    Forall (fun s => no_bar s = true) l1 -> Forall (fun s => no_bar s = true) l2 ->
    l1 <> [] -> l2 <> [] ->
    String.concat "|" l1 = String.concat "|" l2 -> l1 = l2.
Proof.
  induction l1 as [|x l1 IH]; intros l2 H1 H2 Hn1 Hn2 Heq; [congruence |].
  destruct l2 as [|y l2]; [congruence |].
  apply Forall_cons in H1 as [Hx H1]. apply Forall_cons in H2 as [Hy H2].
  destruct l1 as [|x' l1], l2 as [|y' l2].
  - cbn in Heq. now subst.
  - rewrite concat_bar_cons in Heq. cbn [String.concat] in Heq.
    destruct (no_bar_not_joined _ _ _ Hx Heq).
  - rewrite concat_bar_cons in Heq. cbn [String.concat] in Heq. symmetry in Heq.
    destruct (no_bar_not_joined _ _ _ Hy Heq).
  - rewrite !concat_bar_cons in Heq.
    destruct (bar_split_unique _ _ _ _ Hx Hy Heq) as [-> Hrest].
    f_equal. apply IH; try assumption; congruence.
Qed.

Lemma switch_table_Forall (P : string -> Prop) (table : list (N * string))
    (d : string) (k : N) :
  P d -> Forall P table.*2 -> P (switch_table table d k).
Proof.
  intros Hd. induction table as [|[c s] table IH]; intros Hall; [exact Hd |].
  cbn in Hall. apply Forall_cons in Hall as [Hs Hall].
  cbn [switch_table]. destruct (k =? c); [exact Hs | now apply IH].
Qed.

Lemma FlagString_no_bar (v : MediaFlag) : no_bar (MediaFlag.FlagString v) = true.
Proof.
  rewrite FlagString_table.
  apply (switch_table_Forall (fun s => no_bar s = true)); [reflexivity |].
  apply (bool_decide_unpack _). vm_compute. exact I.
Qed.

Lemma map_inj_on {A B : Type} (g : A -> B) (l1 : list A) :
  forall l2,
    (forall x y, In x l1 -> In y l2 -> g x = g y -> x = y) ->
    map g l1 = map g l2 -> l1 = l2.
Proof.
  induction l1 as [|x l1 IH]; intros [|y l2] Hinj Heq; try discriminate; [reflexivity |].
  cbn in Heq. injection Heq as Hxy Heq.
  f_equal.
  - apply Hinj; [now left | now left | exact Hxy].
  - apply IH; [| exact Heq]. intros a b Ha Hb. apply Hinj; now right.
Qed.

Lemma filter_eq_pointwise {A : Type} (p q : A -> bool) (l : list A) (x : A) :
  List.filter p l = List.filter q l -> In x l -> p x = q x.
Proof.
  intros Heq Hx. apply eq_true_iff_eq. split; intros Hpx.
  - assert (Hin : In x (List.filter p l)) by (now apply filter_In).
    rewrite Heq in Hin. now apply filter_In in Hin.
  - assert (Hin : In x (List.filter q l)) by (now apply filter_In).
    rewrite <- Heq in Hin. now apply filter_In in Hin.
Qed.

Lemma set_names_nonempty (f : MediaFlag) :
  N.land f named_mask <> 0 -> set_names f <> [].
Proof.
  intros Hmask. destruct (named_bit_of_mask f Hmask) as (k & Hk & HIs).
  assert (Hin : In (pow2_flag k) (List.filter (MediaFlag.Is f) named_flags)).
  { apply filter_In. split; [| exact HIs]. apply list_elem_of_In, pow2_flag_named, Hk. }
  unfold set_names. destruct (List.filter (MediaFlag.Is f) named_flags); [destruct Hin |].
  discriminate.
Qed.

Lemma set_names_no_bar (f : MediaFlag) :
  Forall (fun s => no_bar s = true) (set_names f).
Proof.
  unfold set_names. apply Forall_forall. intros s Hs.
  apply list_elem_of_In, in_map_iff in Hs as (v & <- & _). apply FlagString_no_bar.
Qed.

(** X15. Two values with named bits render the same exactly when they have
    the same named bits: the string [String] returns determines the named
    part of the value. *)
Theorem String_determines_named_bits (f g : MediaFlag) :
  N.land f named_mask <> 0 -> N.land g named_mask <> 0 ->
  (MediaFlag.String f = MediaFlag.String g
   <-> N.land f named_mask = N.land g named_mask).
Proof.
  intros Hf Hg. rewrite (String_with_named_bit f Hf), (String_with_named_bit g Hg).
  split.
  - intros [= Heq]. unfold render_names in Heq.
    apply concat_bar_inj in Heq;
      [| apply set_names_no_bar | apply set_names_no_bar
       | now apply set_names_nonempty | now apply set_names_nonempty].
    unfold set_names in Heq. apply map_inj_on in Heq.
    + apply N.bits_inj. intros i. rewrite !N.land_spec, named_mask_ones.
      destruct (N.ltb_spec i 15) as [Hi | Hi].
      * rewrite N.ones_spec_low, !andb_true_r by exact Hi.
        assert (Hk : (N.to_nat i < 15)%nat) by lia.
        pose proof (filter_eq_pointwise _ _ _ (pow2_flag (N.to_nat i)) Heq) as Hp.
        rewrite !Is_pow2_testbit, N2Nat.id in Hp. apply Hp.
        apply list_elem_of_In, pow2_flag_named, Hk.
      * now rewrite N.ones_spec_high, !andb_false_r by exact Hi.
    + intros x y Hx Hy. apply filter_In in Hx as [Hx _], Hy as [Hy _].
      apply FlagString_injective_on_named; now apply list_elem_of_In.
  - intros Heq. unfold render_names.
    now rewrite <- (set_names_mask f), <- (set_names_mask g), Heq.
Qed.

Lemma String_determines_named_bits_witness :
  MediaFlag.String (N.lor (uint_shl 1 20) MEDIA_FLAG_DATA) = MediaFlag.String MEDIA_FLAG_DATA
  <-> N.land (N.lor (uint_shl 1 20) MEDIA_FLAG_DATA) named_mask
      = N.land MEDIA_FLAG_DATA named_mask.
Proof.
  apply (String_determines_named_bits (N.lor (uint_shl 1 20) MEDIA_FLAG_DATA) MEDIA_FLAG_DATA);
    vm_compute; discriminate.
Defined.

(** ** The registry of open media *)

Lemma manager_eq (m1 m2 : manager) : media m1 = media m2 -> m1 = m2.
Proof. destruct m1, m2. cbn. now intros ->. Qed.

(** X16. Opening a media and running its release callback leaves the
    registry as it was, when the handle was not tracked before; the same
    holds after [CreateFile]. *)
Theorem open_release_round_trip (m : manager) (h : positive) :
  media m !! h = None ->
  (release h (OpenFile m (inl h)).1).1 = m /\
  (release h (CreateFile m (inl h)).1).1 = m.
Proof.
  intros Hfresh. split; apply manager_eq; cbn; now apply delete_insert_id.
Qed.

Lemma open_release_round_trip_witness :
  (release 7 (OpenFile three_open (inl 7%positive)).1).1 = three_open /\
  (release 7 (CreateFile three_open (inl 7%positive)).1).1 = three_open.
Proof. apply (open_release_round_trip three_open 7). reflexivity. Defined.

Section RegistryProperties.

Variable Media_Close : positive -> manager -> manager * error.

(** X17. [Close] makes as many [Close()] calls as there are tracked media,
    and none when nothing is tracked, in which case it returns nil. *)
Theorem Close_call_count (m : manager) (keys : list positive) :
  range_keys m keys ->
  length (Close Media_Close keys m).2 = size (media m) /\
  (media m = ∅ -> Close Media_Close keys m = (m, None, [])).
Proof.
  intros Hrange. unfold range_keys in Hrange.
  destruct (Close Media_Close keys m) as [[m' r] log] eqn:Hrun.
  pose proof Hrun as Hspec. unfold Close in Hspec.
  apply Close_loop_spec in Hspec as (Hkeys & _).
  split.
  - cbn. rewrite <- (length_fmap fst), Hkeys, Hrange, length_fmap.
    apply length_map_to_list.
  - intros Hempty. rewrite Hempty, map_to_list_empty in Hrange.
    apply Permutation_nil_r in Hrange. subst keys. rewrite <- Hrun. reflexivity.
Qed.

Lemma Close_visits_tracked (m : manager) (h : positive) (keys : list positive) :
  range_keys m keys -> is_Some (media m !! h) ->
  h ∈ (Close Media_Close keys m).2.*1.
Proof.
  intros Hrange [b Hb].
  destruct (Close Media_Close keys m) as [[m' r] log] eqn:Hrun.
  unfold Close in Hrun. apply Close_loop_spec in Hrun as (Hkeys & _).
  cbn. rewrite Hkeys. unfold range_keys in Hrange. rewrite Hrange.
  apply list_elem_of_fmap. exists (h, b). split; [reflexivity |].
  now apply elem_of_map_to_list.
Qed.

(** X18. A media opened through the manager, by [OpenFile] or by
    [CreateFile], is among those [Close] calls [Close()] on. *)
Theorem Close_reaches_opened (m : manager) (h : positive) (keys : list positive) :
  (range_keys (OpenFile m (inl h)).1 keys ->
   h ∈ (Close Media_Close keys (OpenFile m (inl h)).1).2.*1) /\
  (range_keys (CreateFile m (inl h)).1 keys ->
   h ∈ (Close Media_Close keys (CreateFile m (inl h)).1).2.*1).
Proof.
  split; intros Hrange; apply Close_visits_tracked; try exact Hrange;
    cbn; rewrite lookup_insert_eq; eauto.
Qed.

(** X19. A media whose release callback has run is no longer tracked:
    [Close] does not call [Close()] on it. *)
Theorem Close_skips_released (m : manager) (h : positive) (keys : list positive) :
  range_keys (release h m).1 keys ->
  h ∉ (Close Media_Close keys (release h m).1).2.*1.
Proof.
  intros Hrange Hin.
  destruct (Close Media_Close keys (release h m).1) as [[m' r] log] eqn:Hrun.
  unfold Close in Hrun. apply Close_loop_spec in Hrun as (Hkeys & _).
  cbn in Hin. rewrite Hkeys in Hin. unfold range_keys in Hrange. rewrite Hrange in Hin.
  apply list_elem_of_fmap in Hin as ([h' b] & -> & Hin).
  apply elem_of_map_to_list in Hin. cbn in Hin.
  rewrite lookup_delete_eq in Hin. discriminate.
Qed.

(** When every [Close()] runs the release callback, the loop removes the
    keys it visits from the registry. *)
Lemma Close_loop_releases (keys : list positive) :
  (forall h m, (Media_Close h m).1 = (release h m).1) ->
  forall m result,
    media (Close_loop Media_Close keys m result).1.1
    = foldl (fun mm h => delete h mm) (media m) keys.
Proof.
  intros Hrel. induction keys as [|h keys IH]; intros m result; [reflexivity |].
  cbn [Close_loop foldl]. pose proof (Hrel h m) as Hh.
  destruct (Media_Close h m) as [m1 e]. cbn in Hh. subst m1.
  specialize (IH {| media := delete h (media m) |} (record_error result e)).
  destruct (Close_loop Media_Close keys _ _) as [[m2 r] log]. exact IH.
Qed.

Lemma lookup_foldl_delete (l : list positive) :
  forall (mm : gmap positive bool) (i : positive),
    foldl (fun mm h => delete h mm) mm l !! i
    = if bool_decide (i ∈ l) then None else mm !! i.
Proof.
  induction l as [|h l IH]; intros mm i; [reflexivity |].
  cbn [foldl]. rewrite IH.
  destruct (bool_decide (i ∈ l)) eqn:Hb.
  - apply bool_decide_eq_true in Hb. now rewrite bool_decide_eq_true_2 by (now right).
  - apply bool_decide_eq_false in Hb. destruct (decide (h = i)) as [-> | Hne].
    + rewrite lookup_delete_eq, bool_decide_eq_true_2 by (now left). reflexivity.
    + rewrite lookup_delete_ne by exact Hne.
      rewrite bool_decide_eq_false_2; [reflexivity |].
      rewrite not_elem_of_cons. split; [congruence | exact Hb].
Qed.

(** X20. When the [Close()] of every tracked media runs the release
    callback it was opened with, the registry is empty after [Close], so
    that a second [Close] calls nothing and returns nil. *)
Theorem Close_empties_registry (m : manager) (keys : list positive) :
  (forall h m0, (Media_Close h m0).1 = (release h m0).1) ->
  range_keys m keys ->
  media (Close Media_Close keys m).1.1 = ∅ /\
  (forall keys2, range_keys (Close Media_Close keys m).1.1 keys2 ->
     Close Media_Close keys2 (Close Media_Close keys m).1.1
     = ((Close Media_Close keys m).1.1, None, [])).
Proof.
  intros Hrel Hrange.
  assert (Hempty : media (Close Media_Close keys m).1.1 = ∅).
  { unfold Close. rewrite (Close_loop_releases keys Hrel).
    apply map_empty. intros i. rewrite lookup_foldl_delete.
    destruct (bool_decide (i ∈ keys)) eqn:Hb; [reflexivity |].
    apply bool_decide_eq_false in Hb.
    unfold range_keys in Hrange. rewrite Hrange in Hb.
    destruct (media m !! i) as [b|] eqn:Hi; [| reflexivity].
    exfalso. apply Hb, list_elem_of_fmap. exists (i, b). split; [reflexivity |].
    now apply elem_of_map_to_list. }
  split; [exact Hempty |].
  intros keys2 Hrange2. unfold range_keys in Hrange2.
  rewrite Hempty, map_to_list_empty in Hrange2.
  apply Permutation_nil_r in Hrange2. now subst keys2.
Qed.

(** With errors that do not depend on the registry, the log pairs every
    key with the error of its media. *)
Lemma Close_loop_log (err_of : positive -> error) (keys : list positive) :
  (forall h m, (Media_Close h m).2 = err_of h) ->
  forall m result,
    (Close_loop Media_Close keys m result).2 = map (fun h => (h, err_of h)) keys.
Proof.
  intros Herr. induction keys as [|h keys IH]; intros m result; [reflexivity |].
  cbn [Close_loop map]. pose proof (Herr h m) as Hh.
  destruct (Media_Close h m) as [m1 e]. cbn in Hh. subst e.
  specialize (IH m1 (record_error result (err_of h))).
  destruct (Close_loop Media_Close keys _ _) as [[m2 r] log]. cbn in IH |- *.
  now rewrite IH.
Qed.

Lemma concat_map_Permutation {A B : Type} (g : A -> list B) (l1 l2 : list A) :
  l1 ≡ₚ l2 -> concat (map g l1) ≡ₚ concat (map g l2).
Proof.
  induction 1 as [| x l1 l2 _ IH | x y l | l1 l2 l3 _ IH1 _ IH2]; cbn.
  - reflexivity.
  - now rewrite IH.
  - rewrite !app_assoc. apply Permutation_app_tail, Permutation_app_comm.
  - now rewrite IH1.
Qed.

(** X21. The order in which the registry is ranged over does not matter to
    what [Close] reports: with media whose [Close()] error does not depend
    on the registry, two orders give aggregates with the same failures, up
    to their order, and nil together. *)
Theorem Close_order_independent (err_of : positive -> error) (m : manager)
    (keys1 keys2 : list positive) :
  (forall h m0, (Media_Close h m0).2 = err_of h) ->
  range_keys m keys1 -> range_keys m keys2 ->
  multierror.flatten (Close Media_Close keys1 m).1.2
  ≡ₚ multierror.flatten (Close Media_Close keys2 m).1.2 /\
  ((Close Media_Close keys1 m).1.2 = None <-> (Close Media_Close keys2 m).1.2 = None).
Proof.
  intros Herr Hr1 Hr2.
  assert (Hperm : keys1 ≡ₚ keys2) by (unfold range_keys in *; now rewrite Hr1, Hr2).
  pose proof (Close_loop_log err_of keys1 Herr m None) as Hlog1.
  pose proof (Close_loop_log err_of keys2 Herr m None) as Hlog2.
  unfold Close.
  destruct (Close_loop Media_Close keys1 m None) as [[m1 r1] log1] eqn:Hrun1.
  destruct (Close_loop Media_Close keys2 m None) as [[m2 r2] log2] eqn:Hrun2.
  cbn in Hlog1, Hlog2 |- *. subst log1 log2.
  apply Close_loop_spec in Hrun1 as (_ & Hflat1 & Hnil1).
  apply Close_loop_spec in Hrun2 as (_ & Hflat2 & Hnil2).
  cbn in Hflat1, Hflat2. rewrite map_map in Hflat1, Hflat2. cbn in Hflat1, Hflat2.
  split.
  - rewrite Hflat1, Hflat2. now apply concat_map_Permutation.
  - rewrite Hnil1, Hnil2, !Forall_forall.
    split; intros [_ Hall]; (split; [reflexivity |]); intros [h e] Hin;
      apply list_elem_of_In, in_map_iff in Hin as (h' & [= <- <-] & Hh');
      [ apply (Hall (h', err_of h')) | apply (Hall (h', err_of h')) ];
      apply list_elem_of_In, in_map_iff; exists h'; (split; [reflexivity |]);
      apply list_elem_of_In; apply list_elem_of_In in Hh';
      [ now rewrite Hperm | now rewrite <- Hperm ].
Qed.

End RegistryProperties.

Lemma Close_call_count_witness :
  length (Close second_fails (map_to_list (media three_open)).*1 three_open).2
  = size (media three_open) /\
  (media three_open = ∅ ->
   Close second_fails (map_to_list (media three_open)).*1 three_open
   = (three_open, None, [])).
Proof.
  apply (Close_call_count second_fails three_open). unfold range_keys. reflexivity.
Defined.

Lemma Close_reaches_opened_witness :
  4%positive ∈ (Close second_fails
                  (map_to_list (media (OpenFile three_open (inl 4%positive)).1)).*1
                  (OpenFile three_open (inl 4%positive)).1).2.*1.
Proof.
  apply (Close_reaches_opened second_fails three_open 4).
  unfold range_keys. reflexivity.
Defined.

Lemma Close_skips_released_witness :
  2%positive ∉ (Close second_fails
                  (map_to_list (media (release 2 three_open).1)).*1
                  (release 2 three_open).1).2.*1.
Proof.
  apply (Close_skips_released second_fails three_open 2).
  unfold range_keys. reflexivity.
Defined.

Lemma Close_empties_registry_witness :
  media (Close (releasing_Close (fun _ => None))
           (map_to_list (media three_open)).*1 three_open).1.1 = ∅ /\
  (forall keys2,
     range_keys (Close (releasing_Close (fun _ => None))
                   (map_to_list (media three_open)).*1 three_open).1.1 keys2 ->
     Close (releasing_Close (fun _ => None)) keys2
       (Close (releasing_Close (fun _ => None))
          (map_to_list (media three_open)).*1 three_open).1.1
     = ((Close (releasing_Close (fun _ => None))
           (map_to_list (media three_open)).*1 three_open).1.1, None, [])).
Proof.
  apply (Close_empties_registry (releasing_Close (fun _ => None)) three_open).
  - reflexivity.
  - unfold range_keys. reflexivity.
Defined.

Lemma Close_order_independent_witness :
  multierror.flatten (Close second_fails [1; 2; 3]%positive three_open).1.2
  ≡ₚ multierror.flatten (Close second_fails [3; 1; 2]%positive three_open).1.2 /\
  ((Close second_fails [1; 2; 3]%positive three_open).1.2 = None
   <-> (Close second_fails [3; 1; 2]%positive three_open).1.2 = None).
Proof.
  apply (Close_order_independent second_fails
           (fun h => if (h =? 2)%positive then Some (Plain (ErrExternal "close")) else None)
           three_open [1; 2; 3]%positive [3; 1; 2]%positive).
  - intros h m0. unfold second_fails. now destruct (h =? 2)%positive.
  - unfold range_keys. apply (bool_decide_unpack _). vm_compute. exact I.
  - unfold range_keys. apply (bool_decide_unpack _). vm_compute. exact I.
Defined.

(** ** More on the loop of [Decode] *)

Lemma packets_read_app (a b : list event) :
  packets_read (a ++ b) = packets_read a ++ packets_read b.
Proof.
  induction a as [|e a IH]; [reflexivity |].
  destruct e as [[p | x] | p r | | r]; cbn; now rewrite IH.
Qed.

Section DecodeLoopMore.

Context {St : Type}.
Variable fn : St -> packet -> St * error.
Variable ctx : Context.
Variable dm : decodemap.
Variable fin : err.

(** What one dispatch contributes to the counts. *)
Lemma decodemap_Decode_counts h p h1 r evs :
  decodemap_Decode fn dm h p = (h1, r, evs) ->
  packets_read evs = [] /\
  count_events is_read evs = 0%nat /\
  count_events is_release evs = 0%nat /\
  (count_events is_handler evs <= 1)%nat /\
  count_events is_failed_handler evs = match r with Some _ => 1%nat | None => 0%nat end.
Proof.
  intros Hd. apply decodemap_Decode_events in Hd.
  destruct Hd as [[_ ->] | (_ & -> & -> & _)]; [| repeat split; cbn; lia].
  destruct r; repeat split; cbn; lia.
Qed.

(** The packets read are the first packets of the container, in order. *)
Lemma Decode_loop_reads_prefix reads :
  forall t result h ex tr h',
    Decode_loop fn ctx dm reads fin t result h = (ex, tr, h') ->
    exists rest, reads = packets_read tr ++ rest.
Proof.
  induction reads as [|p rest IH]; intros t result h ex tr h' Hrun;
    rewrite Decode_loop_eq in Hrun; destruct (ctx_Err ctx t);
    try (injection Hrun as <- <- <-; cbn; eauto).
  destruct (decodemap_Decode fn dm h p) as [[h1 r] evs] eqn:Hd.
  apply decodemap_Decode_counts in Hd as (Hevs & _).
  destruct r as [e|].
  - injection Hrun as <- <- <-. exists rest. cbn. now rewrite Hevs.
  - destruct (Decode_loop fn ctx dm rest fin (S t) result h1) as [[ex2 tr2] h2] eqn:Hrec.
    injection Hrun as <- <- <-. apply IH in Hrec as [rest' ->].
    exists rest'. cbn. now rewrite packets_read_app, Hevs.
Qed.

(** Once the context is done, nothing more is read. *)
Lemma Decode_loop_cancel_bound (k : nat) reads :
  done_from ctx = Some k ->
  forall t result h ex tr h',
    Decode_loop fn ctx dm reads fin t result h = (ex, tr, h') ->
    (count_events is_read tr <= k - t)%nat /\
    (count_events is_handler tr <= k - t)%nat.
Proof.
  intros Hdone.
  induction reads as [|p rest IH]; intros t result h ex tr h' Hrun;
    rewrite Decode_loop_eq in Hrun; unfold ctx_Err in Hrun; rewrite Hdone in Hrun;
    destruct (Nat.leb_spec k t) as [Hle | Hlt];
    try (injection Hrun as <- <- <-; cbn; lia).
  destruct (decodemap_Decode fn dm h p) as [[h1 r] evs] eqn:Hd.
  apply decodemap_Decode_counts in Hd as (_ & Hr & _ & Hh & _).
  destruct r as [e|].
  - injection Hrun as <- <- <-.
    rewrite !count_events_cons. cbn [is_read is_handler]. lia.
  - destruct (Decode_loop fn ctx dm rest fin (S t) result h1) as [[ex2 tr2] h2] eqn:Hrec.
    injection Hrun as <- <- <-. apply IH in Hrec as [Hr2 Hh2].
    rewrite !count_events_cons, !count_events_app, !count_events_cons.
    cbn [is_read is_handler]. lia.
Qed.

(** Every packet read is released, but for the one whose dispatch failed. *)
Lemma Decode_loop_releases reads :
  forall t result h ex tr h',
    Decode_loop fn ctx dm reads fin t result h = (ex, tr, h') ->
    (count_events is_release tr + count_events is_failed_handler tr)%nat
    = length (packets_read tr).
Proof.
  induction reads as [|p rest IH]; intros t result h ex tr h' Hrun;
    rewrite Decode_loop_eq in Hrun; destruct (ctx_Err ctx t);
    try (injection Hrun as <- <- <-; reflexivity).
  destruct (decodemap_Decode fn dm h p) as [[h1 r] evs] eqn:Hd.
  apply decodemap_Decode_counts in Hd as (Hevs & _ & Hrel & _ & Hfail).
  destruct r as [e|].
  - injection Hrun as <- <- <-.
    rewrite !count_events_cons. cbn [is_release is_failed_handler packets_read].
    rewrite Hevs, Hrel, Hfail. reflexivity.
  - destruct (Decode_loop fn ctx dm rest fin (S t) result h1) as [[ex2 tr2] h2] eqn:Hrec.
    injection Hrun as <- <- <-. apply IH in Hrec.
    rewrite !count_events_cons, !count_events_app, !count_events_cons.
    cbn [is_release is_failed_handler packets_read].
    rewrite packets_read_app, Hevs, Hrel, Hfail. cbn. lia.
Qed.

(** Left by [break] with nothing recorded: the end of the stream was read. *)
Lemma Decode_loop_break_nil reads :
  forall t h tr h',
    Decode_loop fn ctx dm reads fin t None h = (ExitBreak None, tr, h') ->
    EvRead (inr fin) ∈ tr /\ fin = io_EOF.
Proof.
  induction reads as [|p rest IH]; intros t h tr h' Hrun;
    rewrite Decode_loop_eq in Hrun; destruct (ctx_Err ctx t); try discriminate.
  - destruct fin; try discriminate. injection Hrun as <- <-. split; [now left | reflexivity].
  - destruct (decodemap_Decode fn dm h p) as [[h1 r] evs] eqn:Hd.
    destruct r as [e|]; [discriminate |].
    destruct (Decode_loop fn ctx dm rest fin (S t) None h1) as [[ex2 tr2] h2] eqn:Hrec.
    injection Hrun as -> <- <-. apply IH in Hrec as [Hin Hfin].
    split; [| exact Hfin]. right. apply elem_of_app. right. now right.
Qed.

(** The shape of what the loop does: it goes quietly through the first
    packets, then stops for one of its three reasons. *)
Lemma Decode_loop_shape reads :
  forall t result h ex tr h',
    Decode_loop fn ctx dm reads fin t result h = (ex, tr, h') ->
    exists pre rest,
      reads = pre ++ rest /\
      ((tr = quiet_trace dm pre /\ exists e, ex = ExitReturn e) \/
       (rest = [] /\ tr = quiet_trace dm pre ++ [EvRead (inr fin)] /\
        exists r, ex = ExitBreak r) \/
       (exists p rest' e,
          rest = p :: rest' /\ selected dm p = true /\
          tr = quiet_trace dm pre ++ [EvRead (inl p); EvHandler p (Some e)] /\
          exists r, ex = ExitBreak r)).
Proof.
  induction reads as [|p rest0 IH]; intros t result h ex tr h' Hrun;
    rewrite Decode_loop_eq in Hrun; destruct (ctx_Err ctx t).
  - injection Hrun as <- <- <-. exists [], []. split; [reflexivity |]. left. eauto.
  - injection Hrun as <- <- <-. exists [], []. split; [reflexivity |]. right. left. eauto.
  - injection Hrun as <- <- <-. exists [], (p :: rest0). split; [reflexivity |]. left. eauto.
  - destruct (decodemap_Decode fn dm h p) as [[h1 r] evs] eqn:Hd.
    apply decodemap_Decode_events in Hd.
    destruct r as [e|].
    + injection Hrun as <- <- <-.
      destruct Hd as [[Hsel ->] | (_ & _ & Hr & _)]; [| discriminate].
      exists [], (p :: rest0). split; [reflexivity |]. right. right.
      exists p, rest0, e. eauto.
    + destruct (Decode_loop fn ctx dm rest0 fin (S t) result h1) as [[ex2 tr2] h2] eqn:Hrec.
      injection Hrun as <- <- <-.
      destruct (IH _ _ _ _ _ _ Hrec) as (pre & rest & -> & Hshape).
      exists (p :: pre), rest. split; [reflexivity |].
      assert (Hstep : forall tail,
                EvRead (inl p) :: evs ++ EvRelease :: quiet_trace dm pre ++ tail
                = quiet_trace dm (p :: pre) ++ tail).
      { intros tail. unfold quiet_trace. cbn [map concat].
        change (quiet_step dm p)
          with (EvRead (inl p)
                :: (if selected dm p then [EvHandler p None] else []) ++ [EvRelease]).
        destruct Hd as [[Hsel ->] | (Hsel & -> & _)]; rewrite Hsel; reflexivity. }
      destruct Hshape as [[-> He] | [(-> & -> & Hr) | (q & rest' & e & -> & Hsel & -> & Hr)]].
      * left. split; [| exact He]. rewrite <- (app_nil_r (quiet_trace dm pre)).
        rewrite Hstep. now rewrite app_nil_r.
      * right. left. split; [reflexivity |]. split; [apply Hstep | exact Hr].
      * right. right. exists q, rest', e. split; [reflexivity |].
        split; [exact Hsel |]. split; [apply Hstep | exact Hr].
Qed.

End DecodeLoopMore.

Section DecodeMore.

Context {St : Type}.
Variable fn : St -> packet -> St * error.
Variable decodemap_Close : decodemap -> error.

(** What a session returns, from how its loop was left. *)
Lemma Decode_run ctx media_map h dm i ret tr h1 :
  session_of media_map = Some (dm, i) ->
  Decode fn decodemap_Close ctx media_map h = (ret, tr, h1) ->
  exists ex tr0,
    Decode_loop fn ctx dm (packets (in_container i)) (read_end (in_container i))
      0 None h = (ex, tr0, h1) /\
    match ex with
    | ExitReturn e => ret = Returns e /\ tr = tr0
    | ExitBreak result =>
        ret = Returns (record_error result (decodemap_Close dm)) /\
        tr = tr0 ++ [EvClose (decodemap_Close dm)]
    end.
Proof.
  intros Hs Hrun. rewrite (Decode_session _ _ _ _ _ _ _ Hs) in Hrun.
  destruct (Decode_loop fn ctx dm _ _ 0 None h) as [[ex tr0] h0] eqn:Hloop.
  exists ex, tr0. destruct ex; injection Hrun as <- <- <-; auto.
Qed.

(** X22. A map that is not a [decodemap] is never decoded: [Decode] returns
    the parameter error when its input is not a non-nil input media, and
    panics on the conversion of the map when it is; either way nothing is
    read, handled or closed. *)
Theorem Decode_foreign_map ctx (inp : Media) (h : St) :
  (Decode fn decodemap_Close ctx (other_Map inp) h).1.2 = [] /\
  (Decode fn decodemap_Close ctx (other_Map inp) h).2 = h /\
  ((exists i, inp = input_ptr (Some i)) ->
   exists msg, (Decode fn decodemap_Close ctx (other_Map inp) h).1.1 = Panics msg) /\
  ((forall i, inp <> input_ptr (Some i)) ->
   (Decode fn decodemap_Close ctx (other_Map inp) h).1.1
   = Returns (Some (Plain (ErrBadParameter "input")))).
Proof.
  unfold Decode. cbn [Map_Input].
  destruct inp as [|[i|]|]; cbn;
    (split; [reflexivity |]); (split; [reflexivity |]); split.
  - intros [i Hi]. discriminate.
  - reflexivity.
  - intros _. eexists. reflexivity.
  - intros Hne. now destruct (Hne i).
  - intros [i Hi]. discriminate.
  - reflexivity.
  - intros [i Hi]. discriminate.
  - reflexivity.
Qed.

(** X23. The packets [Decode] reads are the first packets of the container,
    in file order, none skipped and none read twice. *)
Theorem Decode_reads_in_order ctx media_map h dm i ret tr h1 :
  session_of media_map = Some (dm, i) ->
  Decode fn decodemap_Close ctx media_map h = (ret, tr, h1) ->
  exists rest, packets (in_container i) = packets_read tr ++ rest.
Proof.
  intros Hs Hrun.
  destruct (Decode_run _ _ _ _ _ _ _ _ Hs Hrun) as (ex & tr0 & Hloop & Hex).
  apply Decode_loop_reads_prefix in Hloop as [rest Hrest].
  exists rest. destruct ex as [e | result]; destruct Hex as [_ ->]; [exact Hrest |].
  rewrite packets_read_app. cbn. now rewrite app_nil_r.
Qed.

(** X24. With a context that is done from iteration [k] on, [Decode] makes
    at most [k] reads and at most [k] calls of the handler. *)
Theorem Decode_cancel_bound ctx media_map h ret tr h1 (k : nat) :
  done_from ctx = Some k ->
  Decode fn decodemap_Close ctx media_map h = (ret, tr, h1) ->
  (count_events is_read tr <= k)%nat /\ (count_events is_handler tr <= k)%nat.
Proof.
  intros Hdone Hrun.
  destruct (session_of media_map) as [[dm i]|] eqn:Hs.
  - destruct (Decode_run _ _ _ _ _ _ _ _ Hs Hrun) as (ex & tr0 & Hloop & Hex).
    apply (Decode_loop_cancel_bound _ _ _ _ k _ Hdone) in Hloop as [Hr Hh].
    destruct ex as [e | result]; destruct Hex as [_ ->];
      rewrite ?count_events_app; cbn; lia.
  - destruct (Decode_rejected fn decodemap_Close ctx media_map h Hs) as (Htr & _).
    rewrite Hrun in Htr. cbn in Htr. subst tr. cbn. lia.
Qed.

(** X25. A read that fails with anything but [io.EOF] ends the session:
    the map is closed, and [Decode] returns the aggregate of the read
    error followed by the members of a failed close. *)
Theorem Decode_read_error ctx media_map h ret tr h1 (e : err) :
  Decode fn decodemap_Close ctx media_map h = (ret, tr, h1) ->
  EvRead (inr e) ∈ tr ->
  is_io_EOF e = false ->
  exists dm pre,
    media_map = decodemap_ptr dm /\
    tr = pre ++ [EvClose (decodemap_Close dm)] /\
    (forall q r, EvHandler q r ∈ pre -> r = None) /\
    ret = Returns (Some (Aggregate (e :: multierror.flatten (decodemap_Close dm)))).
Proof.
  intros Hrun Hin Hne.
  destruct (session_of media_map) as [[dm i]|] eqn:Hs.
  - destruct (Decode_run _ _ _ _ _ _ _ _ Hs Hrun) as (ex & tr0 & Hloop & Hex).
    assert (Hin0 : EvRead (inr e) ∈ tr0).
    { destruct ex; destruct Hex as [_ ->]; [exact Hin |].
      apply elem_of_app in Hin as [Hin | Hin]; [exact Hin |].
      apply list_elem_of_singleton in Hin. discriminate. }
    destruct (Decode_loop_end_of_reads _ _ _ _ _ _ _ _ _ _ _ _ Hloop Hin0)
      as (Hfin & -> & _ & _ & Hnil).
    rewrite <- Hfin, Hne in Hex. destruct Hex as [-> ->].
    exists dm, tr0. split; [exact (session_of_decodemap _ _ _ Hs) |].
    split; [reflexivity |]. split; [exact Hnil |].
    unfold record_error, multierror.Append.
    destruct (decodemap_Close dm) as [c|]; reflexivity.
  - destruct (Decode_rejected fn decodemap_Close ctx media_map h Hs) as (Htr & _).
    rewrite Hrun in Htr. cbn in Htr. subst tr. now apply elem_of_nil in Hin.
Qed.

(** X26. A session returns nil exactly when it read the stream to its end
    and the close of the map succeeded. *)
Theorem Decode_nil_iff ctx media_map h dm i ret tr h1 :
  session_of media_map = Some (dm, i) ->
  Decode fn decodemap_Close ctx media_map h = (ret, tr, h1) ->
  (ret = Returns None
   <-> EvRead (inr io_EOF) ∈ tr /\ decodemap_Close dm = None).
Proof.
  intros Hs Hrun.
  destruct (Decode_run _ _ _ _ _ _ _ _ Hs Hrun) as (ex & tr0 & Hloop & Hex).
  destruct ex as [e | result]; destruct Hex as [-> ->].
  - split.
    + intros [= ->]. apply Decode_loop_return in Hloop as (k & _ & Hk). congruence.
    + intros [Hin _].
      destruct (Decode_loop_end_of_reads _ _ _ _ _ _ _ _ _ _ _ _ Hloop Hin) as (_ & Hex & _).
      discriminate.
  - split.
    + intros [= Hnil]. unfold record_error in Hnil.
      destruct (decodemap_Close dm) as [c|]; [discriminate |]. subst result.
      apply Decode_loop_break_nil in Hloop as [Hin Hfin]. rewrite Hfin in Hin.
      split; [| reflexivity]. apply elem_of_app. now left.
    + intros [Hin Hclose]. rewrite Hclose.
      apply elem_of_app in Hin as [Hin | Hin];
        [| apply list_elem_of_singleton in Hin; discriminate].
      destruct (Decode_loop_end_of_reads _ _ _ _ _ _ _ _ _ _ _ _ Hloop Hin)
        as (Hfin & Hex & _).
      rewrite <- Hfin in Hex. cbn in Hex. injection Hex as ->. reflexivity.
Qed.

(** X27. Every packet read is released before the next read, except the
    packet whose dispatch failed, which is left unreleased. The trace of a
    session is, for each packet of an initial segment of the container, its
    read, the handler call when its stream is selected, and its release;
    then nothing more (cancellation), or the failed read and the close, or
    the read of one more packet, the failed handler call and the close. *)
Theorem Decode_trace_shape ctx media_map h dm i ret tr h1 :
  session_of media_map = Some (dm, i) ->
  Decode fn decodemap_Close ctx media_map h = (ret, tr, h1) ->
  exists pre rest,
    packets (in_container i) = pre ++ rest /\
    (tr = quiet_trace dm pre \/
     (rest = [] /\
      tr = quiet_trace dm pre
           ++ [EvRead (inr (read_end (in_container i))); EvClose (decodemap_Close dm)]) \/
     (exists p rest' e,
        rest = p :: rest' /\ selected dm p = true /\
        tr = quiet_trace dm pre
             ++ [EvRead (inl p); EvHandler p (Some e); EvClose (decodemap_Close dm)])).
Proof.
  intros Hs Hrun.
  destruct (Decode_run _ _ _ _ _ _ _ _ Hs Hrun) as (ex & tr0 & Hloop & Hex).
  apply Decode_loop_shape in Hloop as (pre & rest & Hpk & Hshape).
  exists pre, rest. split; [exact Hpk |].
  destruct Hshape as [[-> [e ->]] | [(-> & -> & [r ->]) | (p & rest' & e & -> & Hsel & -> & [r ->])]];
    destruct Hex as [_ ->].
  - now left.
  - right. left. split; [reflexivity |]. now rewrite <- app_assoc.
  - right. right. exists p, rest', e. split; [reflexivity |]. split; [exact Hsel |].
    now rewrite <- app_assoc.
Qed.

(** X28. When a read fails or the handler fails, the close of the map is
    the one close of the call and the last thing it does. *)
Theorem Decode_closes_last ctx media_map h ret tr h1 :
  Decode fn decodemap_Close ctx media_map h = (ret, tr, h1) ->
  (exists e, EvRead (inr e) ∈ tr) \/ (exists p e, EvHandler p (Some e) ∈ tr) ->
  exists dm pre,
    media_map = decodemap_ptr dm /\
    tr = pre ++ [EvClose (decodemap_Close dm)] /\
    count_events is_close pre = 0%nat.
Proof.
  intros Hrun Hev.
  destruct (session_of media_map) as [[dm i]|] eqn:Hs.
  - destruct (Decode_run _ _ _ _ _ _ _ _ Hs Hrun) as (ex & tr0 & Hloop & Hex).
    destruct ex as [e0 | result]; destruct Hex as [_ ->].
    + exfalso. destruct Hev as [[e Hin] | (p & e & Hin)].
      * destruct (Decode_loop_end_of_reads _ _ _ _ _ _ _ _ _ _ _ _ Hloop Hin)
          as (_ & Hex & _). discriminate.
      * destruct (Decode_loop_handler_error _ _ _ _ _ _ _ _ _ _ _ _ _ Hloop Hin)
          as (pre & _ & Hex & _). discriminate.
    + exists dm, tr0. split; [exact (session_of_decodemap _ _ _ Hs) |].
      split; [reflexivity |]. exact (Decode_loop_no_close _ _ _ _ _ _ _ _ _ _ _ Hloop).
  - destruct (Decode_rejected fn decodemap_Close ctx media_map h Hs) as (Htr & _).
    rewrite Hrun in Htr. cbn in Htr. subst tr.
    destruct Hev as [[e Hin] | (p & e & Hin)]; now apply elem_of_nil in Hin.
Qed.

End DecodeMore.

(** ** The further properties on the sample media *)

Lemma Decode_foreign_map_witness :
  (Decode count_calls close_ok background (other_Map (input_ptr (Some sample_input))) 0%nat).1.2 = [] /\
  (Decode count_calls close_ok background (other_Map (input_ptr (Some sample_input))) 0%nat).2 = 0%nat /\
  ((exists i, input_ptr (Some sample_input) = input_ptr (Some i)) ->
   exists msg,
     (Decode count_calls close_ok background
        (other_Map (input_ptr (Some sample_input))) 0%nat).1.1 = Panics msg) /\
  ((forall i, input_ptr (Some sample_input) <> input_ptr (Some i)) ->
   (Decode count_calls close_ok background
      (other_Map (input_ptr (Some sample_input))) 0%nat).1.1
   = Returns (Some (Plain (ErrBadParameter "input")))).
Proof.
  apply (Decode_foreign_map count_calls close_ok background
           (input_ptr (Some sample_input)) 0%nat).
Defined.

Lemma Decode_reads_in_order_witness :
  exists rest,
    packets (in_container sample_input)
    = packets_read
        (Decode (fail_at 1) close_ok background (decodemap_ptr sample_dm) 0%nat).1.2
      ++ rest.
Proof.
  apply (Decode_reads_in_order (fail_at 1) close_ok background (decodemap_ptr sample_dm)
           0%nat sample_dm sample_input
           (Decode (fail_at 1) close_ok background (decodemap_ptr sample_dm) 0%nat).1.1
           _
           (Decode (fail_at 1) close_ok background (decodemap_ptr sample_dm) 0%nat).2);
    reflexivity.
Defined.

Lemma Decode_cancel_bound_witness :
  (count_events is_read
     (Decode count_calls close_ok (cancelled_from 2) (decodemap_ptr sample_dm) 0%nat).1.2
   <= 2)%nat /\
  (count_events is_handler
     (Decode count_calls close_ok (cancelled_from 2) (decodemap_ptr sample_dm) 0%nat).1.2
   <= 2)%nat.
Proof.
  apply (Decode_cancel_bound count_calls close_ok (cancelled_from 2)
           (decodemap_ptr sample_dm) 0%nat
           (Decode count_calls close_ok (cancelled_from 2) (decodemap_ptr sample_dm) 0%nat).1.1
           _
           (Decode count_calls close_ok (cancelled_from 2) (decodemap_ptr sample_dm) 0%nat).2);
    reflexivity.
Defined.

Lemma Decode_read_error_witness :
  exists dm pre,
    decodemap_ptr broken_dm = decodemap_ptr dm /\
    (Decode count_calls close_fails background (decodemap_ptr broken_dm) 0%nat).1.2
    = pre ++ [EvClose (close_fails dm)] /\
    (forall q r, EvHandler q r ∈ pre -> r = None) /\
    (Decode count_calls close_fails background (decodemap_ptr broken_dm) 0%nat).1.1
    = Returns (Some (Aggregate (ErrExternal "read" :: multierror.flatten (close_fails dm)))).
Proof.
  apply (Decode_read_error count_calls close_fails background (decodemap_ptr broken_dm)
           0%nat _ _
           (Decode count_calls close_fails background (decodemap_ptr broken_dm) 0%nat).2).
  - reflexivity.
  - apply list_elem_of_In. vm_compute. tauto.
  - reflexivity.
Defined.

Lemma Decode_nil_iff_witness :
  (Decode count_calls close_ok background (decodemap_ptr sample_dm) 0%nat).1.1 = Returns None
  <-> EvRead (inr io_EOF)
        ∈ (Decode count_calls close_ok background (decodemap_ptr sample_dm) 0%nat).1.2
      /\ close_ok sample_dm = None.
Proof.
  apply (Decode_nil_iff count_calls close_ok background (decodemap_ptr sample_dm)
           0%nat sample_dm sample_input _ _
           (Decode count_calls close_ok background (decodemap_ptr sample_dm) 0%nat).2);
    reflexivity.
Defined.

Lemma Decode_trace_shape_witness :
  exists pre rest,
    packets (in_container sample_input) = pre ++ rest /\
    ((Decode (fail_at 1) close_ok background (decodemap_ptr sample_dm) 0%nat).1.2
     = quiet_trace sample_dm pre \/
     (rest = [] /\
      (Decode (fail_at 1) close_ok background (decodemap_ptr sample_dm) 0%nat).1.2
      = quiet_trace sample_dm pre
        ++ [EvRead (inr (read_end (in_container sample_input)));
            EvClose (close_ok sample_dm)]) \/
     (exists p rest' e,
        rest = p :: rest' /\ selected sample_dm p = true /\
        (Decode (fail_at 1) close_ok background (decodemap_ptr sample_dm) 0%nat).1.2
        = quiet_trace sample_dm pre
          ++ [EvRead (inl p); EvHandler p (Some e); EvClose (close_ok sample_dm)])).
Proof.
  apply (Decode_trace_shape (fail_at 1) close_ok background (decodemap_ptr sample_dm)
           0%nat sample_dm sample_input
           (Decode (fail_at 1) close_ok background (decodemap_ptr sample_dm) 0%nat).1.1
           _
           (Decode (fail_at 1) close_ok background (decodemap_ptr sample_dm) 0%nat).2);
    reflexivity.
Defined.

Lemma Decode_closes_last_witness :
  exists dm pre,
    decodemap_ptr sample_dm = decodemap_ptr dm /\
    (Decode (fail_at 1) close_ok background (decodemap_ptr sample_dm) 0%nat).1.2
    = pre ++ [EvClose (close_ok dm)] /\
    count_events is_close pre = 0%nat.
Proof.
  apply (Decode_closes_last (fail_at 1) close_ok background (decodemap_ptr sample_dm)
           0%nat
           (Decode (fail_at 1) close_ok background (decodemap_ptr sample_dm) 0%nat).1.1
           _
           (Decode (fail_at 1) close_ok background (decodemap_ptr sample_dm) 0%nat).2).
  - reflexivity.
  - right. exists (pk 1 100), (Plain (ErrExternal "handler")).
    apply list_elem_of_In. vm_compute. tauto.
Defined.

(** The release accounting on a failing handler: two packets read, one
    released, one left with the failed call. *)
Example Decode_release_counts :
  let tr := (Decode (fail_at 1) close_ok background (decodemap_ptr sample_dm) 0%nat).1.2 in
  packets_read tr = [pk 0 0; pk 1 100] /\
  count_events is_release tr = 1%nat /\ count_events is_failed_handler tr = 1%nat.
Proof. repeat split. Qed.
